(** * THALOS PRIME: dependency resolver, smart cache and file signatures

    A shallow embedding of [DependencyResolver] and [SmartCache] from
    [thalos_utils.py] and of [IntelligentAnalyzer._compute_file_signatures]
    from [thalos_core.py], with the properties the specification states
    about them.  It is followed by [MetricsCollector] and [PatternLearner]
    from [thalos_utils.py] and by [_infer_build_patterns] and
    [BuildOrchestrator] from [thalos_core.py], with further properties of
    the code.

    The first part is the model of the code, the second the vocabulary of
    the properties, the third the proofs. *)

From Stdlib Require Import Strings.Byte Strings.Ascii.
From stdpp Require Import gmap strings list relations.

Open Scope string_scope.
Open Scope nat_scope.
Open Scope list_scope.

#[local] Set Warnings "-clear-no-such-hyp,-register-all".

(** * The model

    ** Python dictionaries

    A Python [dict] with string keys keeps its items in insertion order:
    assigning to a key that is present replaces the value in place, a new
    key goes to the end, and [del] drops the item.  The items are kept as
    an association list in that order. *)

Definition dict (V : Type) : Type := list (string * V).

(** [d.get(k)]: the value of the first item with key [k]. *)
Fixpoint dict_get {V} (k : string) (d : dict V) : option V :=
  match d with
  | [] => None
  | (k', v) :: d' => if decide (k' = k) then Some v else dict_get k d'
  end.

(** [k in d] *)
Definition dict_mem {V} (k : string) (d : dict V) : bool :=
  match dict_get k d with Some _ => true | None => false end.

(** [d[k] = v] *)
Fixpoint dict_set {V} (k : string) (v : V) (d : dict V) : dict V :=
  match d with
  | [] => [(k, v)]
  | (k', v') :: d' =>
      if decide (k' = k) then (k, v) :: d' else (k', v') :: dict_set k v d'
  end.

(** [del d[k]] *)
Fixpoint dict_del {V} (k : string) (d : dict V) : dict V :=
  match d with
  | [] => []
  | (k', v') :: d' =>
      if decide (k' = k) then dict_del k d' else (k', v') :: dict_del k d'
  end.

(** [list(d)], the keys in iteration order. *)
Definition dict_keys {V} (d : dict V) : list string := d.*1.

(** ** Loops over a list with a fallible body *)

(** The outcome of running a piece of Python under a recursion budget:
    a value, an exception, or the budget ran out. *)
Inductive exn : Type := ValueError | KeyError.

Inductive outcome (A : Type) : Type :=
  | Done (a : A)
  | Raised (e : exn)
  | OutOfFuel.
Arguments Done {A} a.
Arguments Raised {A} e.
Arguments OutOfFuel {A}.

#[global] Instance outcome_ret : MRet outcome := @Done.

#[global] Instance outcome_bind : MBind outcome := fun A B k m =>
  match m with
  | Done a => k a
  | Raised e => Raised e
  | OutOfFuel => OutOfFuel
  end.

(** [for x in l: body(x)] over a state [S]. *)
Fixpoint for_each {S A} (body : A → S → outcome S) (l : list A) (st : S)
  : outcome S :=
  match l with
  | [] => Done st
  | x :: l' => st' ← body x st ; for_each body l' st'
  end.

(** ** DependencyResolver *)

Module DependencyResolver.

(** [self.dependency_graph: Dict[str, List[str]]] *)
Definition graph : Type := dict (list string).

(** [add_dependency(package, depends_on)] *)
Definition add_dependency (package : string) (depends_on : list string)
    (g : graph) : graph :=
  dict_set package depends_on g.

(** [self.dependency_graph.get(node, [])] *)
Definition deps (g : graph) (node : string) : list string :=
  default [] (dict_get node g).

(** *** get_build_order *)

(** The two locals of [get_build_order] that the nested [visit] closes
    over. *)
Record order_state : Type := OrderState {
  o_visited : gset string;
  o_result : list string
}.

Definition order_init : order_state := OrderState ∅ [].

(** The nested function [visit(node)].  [fuel] bounds the depth of the
    recursion; the recursion limit of the interpreter is not modelled. *)
Fixpoint order_visit (fuel : nat) (g : graph) (node : string)
    (st : order_state) : outcome order_state :=
  match fuel with
  | O => OutOfFuel
  | S fuel' =>
      if decide (node ∈ o_visited st) then Done st
      else
        let st1 := OrderState ({[node]} ∪ o_visited st) (o_result st) in
        st2 ← for_each (order_visit fuel' g) (deps g node) st1 ;
        Done (OrderState (o_visited st2) (o_result st2 ++ [node]))
  end.

Definition get_build_order (fuel : nat) (g : graph) : outcome (list string) :=
  st ← for_each (order_visit fuel g) (dict_keys g) order_init ;
  Done (o_result st).

(** *** detect_cycles *)

(** The three locals of [detect_cycles] that the nested [visit] closes
    over. *)
Record cycle_state : Type := CycleState {
  c_cycles : list (list string);
  c_visited : gset string;
  c_rec_stack : gset string
}.

Definition cycle_init : cycle_state := CycleState [] ∅ ∅.

(** [path.index(node)]: the position of the first occurrence, [None]
    where Python raises [ValueError]. *)
Fixpoint list_index (node : string) (path : list string) : option nat :=
  match path with
  | [] => None
  | x :: path' =>
      if decide (x = node) then Some O else S <$> list_index node path'
  end.

(** The nested function [visit(node, path)]; it returns its boolean
    together with the updated locals.  [rec_stack.remove(node)] raises
    [KeyError] when [node] is not in the set. *)
Fixpoint cycle_visit (fuel : nat) (g : graph) (node : string)
    (path : list string) (st : cycle_state) : outcome (bool * cycle_state) :=
  match fuel with
  | O => OutOfFuel
  | S fuel' =>
      if decide (node ∈ c_rec_stack st) then
        match list_index node path with
        | Some cycle_start =>
            Done (true,
                  CycleState (c_cycles st ++ [drop cycle_start path ++ [node]])
                             (c_visited st) (c_rec_stack st))
        | None => Raised ValueError
        end
      else if decide (node ∈ c_visited st) then Done (false, st)
      else
        let st1 := CycleState (c_cycles st) ({[node]} ∪ c_visited st)
                              ({[node]} ∪ c_rec_stack st) in
        st2 ← for_each
                (fun dep s => r ← cycle_visit fuel' g dep (path ++ [node]) s ;
                              Done r.2)
                (deps g node) st1 ;
        if decide (node ∈ c_rec_stack st2) then
          Done (false,
                CycleState (c_cycles st2) (c_visited st2)
                           (c_rec_stack st2 ∖ {[node]}))
        else Raised KeyError
  end.

Definition detect_cycles (fuel : nat) (g : graph)
  : outcome (list (list string)) :=
  st ← for_each
         (fun node s => r ← cycle_visit fuel g node [] s ; Done r.2)
         (dict_keys g) cycle_init ;
  Done (c_cycles st).

End DependencyResolver.

(** ** SmartCache

    The cache directory holds the index file and one payload file per
    key.  Writing a file always succeeds: a full disk or a missing
    permission is outside the model. *)

Module SmartCache.

(** The values [json.loads] returns.  A number with a fraction is kept
    as a rational; the cache computes with none of them. *)
Inductive json : Type :=
  | JNull
  | JBool (b : bool)
  | JInt (n : Z)
  | JFloat (x : QArith_base.Q)
  | JStr (s : string)
  | JList (items : list json)
  | JDict (items : list (string * json)).

(** A file of the cache directory, by what reading it gives:
    [read_text()] raises, [json.loads] raises on the text, or the text
    decodes to [a].  What [write_text(json.dumps(a))] writes decodes
    to [a]. *)
Inductive file (A : Type) : Type :=
  | Unreadable
  | Malformed
  | Holds (a : A).
Arguments Unreadable {A}.
Arguments Malformed {A}.
Arguments Holds {A} a.

(** An item of the index, as [set] writes it; [file_path] is its field
    ['file']. *)
Record entry : Type := Entry {
  timestamp : QArith_base.Q;
  dependencies : list string;
  file_path : string
}.

(** The cache directory: [cache_index.json], which is absent or a file,
    and the other files by name.  When the index file decodes, it holds a
    dictionary of items, as [_save_index] writes it and as the result
    type [Dict[str, Any]] of [_load_index] says. *)
Record cache_dir : Type := CacheDir {
  index_file : option (file (dict entry));
  files : gmap string (file json)
}.

(** [self.cache_dir / f"{key}.cache"], for a key that is a plain file
    name. *)
Definition cache_file (key : string) : string := key +:+ ".cache".

Definition _load_index (dir : cache_dir) : dict entry :=
  match index_file dir with
  | Some (Holds index) => index
  | Some Unreadable | Some Malformed | None => []
  end.

Definition _save_index (index : dict entry) (dir : cache_dir) : cache_dir :=
  CacheDir (Some (Holds index)) (files dir).

(** [get] returns [None] where the Python falls through to its final
    [return None], and [Some value] where it returns what the payload
    decodes to. *)
Definition get (key : string) (dir : cache_dir) : option json :=
  let index := _load_index dir in
  if dict_mem key index then
    match files dir !! cache_file key with
    | Some (Holds value) => Some value
    | Some Unreadable | Some Malformed | None => None
    end
  else None.

(** [set]; [now] is what [time.time()] returns, and [default []] is
    [dependencies or []]. *)
Definition set (key : string) (value : json)
    (dependencies : option (list string)) (now : QArith_base.Q)
    (dir : cache_dir)
  : cache_dir :=
  let index := _load_index dir in
  let dir1 :=
    CacheDir (index_file dir) (<[cache_file key := Holds value]> (files dir)) in
  let index1 :=
    dict_set key (Entry now (default [] dependencies) (cache_file key)) index in
  _save_index index1 dir1.

(** [invalidate]: under [if key in index], the payload file that the
    item names is unlinked if it exists, the item is deleted and the
    index saved. *)
Definition invalidate (key : string) (dir : cache_dir) : cache_dir :=
  let index := _load_index dir in
  match dict_get key index with
  | Some item =>
      let dir1 :=
        match files dir !! file_path item with
        | Some _ => CacheDir (index_file dir) (delete (file_path item) (files dir))
        | None => dir
        end in
      _save_index (dict_del key index) dir1
  | None => dir
  end.

(** [invalidate_dependent]: the keys are collected from one reading of
    the index, then [invalidate] runs for each of them. *)
Definition invalidate_dependent (dependency : string) (dir : cache_dir)
  : cache_dir :=
  let index := _load_index dir in
  let to_invalidate :=
    (filter (λ item, dependency ∈ dependencies item.2) index).*1 in
  foldl (λ dir1 key, invalidate key dir1) dir to_invalidate.

(** [suffix] ends the string [s]; [glob("*.cache")] yields the files of
    the directory whose name ends with [.cache]. *)
Fixpoint ends_with (suffix s : string) : bool :=
  if String.eqb s suffix then true
  else
    match s with
    | EmptyString => false
    | String _ s' => ends_with suffix s'
    end.

(** [clear]: every file that the glob yields is unlinked, then the index
    file if it exists. *)
Definition clear (dir : cache_dir) : cache_dir :=
  CacheDir None
    (filter (λ name_file, ends_with ".cache" name_file.1 = false) (files dir)).

End SmartCache.

(** ** IntelligentAnalyzer *)

Module IntelligentAnalyzer.

(** A file of the project tree, by what the two fallible calls of the
    loop body give: [stat().st_size] and [read_bytes()], each [None] where
    the call raises. *)
Record file : Type := File {
  st_size : option Z;
  read_bytes : option (list byte)
}.

(** The tree under [self.root_path].  A directory lists its entries in
    the order in which [os.walk] enumerates them; one that cannot be
    listed is walked as an empty one. *)
Inductive node : Type :=
  | FileNode (f : file)
  | DirNode (entries : list (string * node)).

(** [d in {'.git', 'node_modules', '__pycache__'}] *)
Definition pruned (d : string) : bool :=
  bool_decide (d ∈ [".git"; "node_modules"; "__pycache__"]).

(** [str(file_path.relative_to(self.root_path))] for the path with the
    components [parts] below the root. *)
Definition rel_path (parts : list string) : string := String.concat "/" parts.

Section signatures.
(** [hashlib.sha256(content).hexdigest()] *)
Variable sha256_hexdigest : list byte → string.

(** The body of the inner loop, with its [try] and [except]. *)
Definition hash_file (path : string) (f : file)
    (signatures : gmap string string) : gmap string string :=
  match st_size f with
  | Some size =>
      if bool_decide (size < 10000000)%Z then
        match read_bytes f with
        | Some content =>
            <[path := String.substring 0 16 (sha256_hexdigest content)]>
              signatures
        | None => signatures
        end
      else signatures
  | None => signatures
  end.

(** [os.walk] from the directory with the components [root], top down:
    the files of a directory first, then its directories that the
    filter on [dirs] keeps. *)
Fixpoint walk (root : list string) (n : node)
    (signatures : gmap string string) : gmap string string :=
  match n with
  | FileNode _ => signatures
  | DirNode entries =>
      let signatures1 :=
        foldl (λ sigs e,
                 match e.2 with
                 | FileNode f => hash_file (rel_path (root ++ [e.1])) f sigs
                 | DirNode _ => sigs
                 end) signatures entries in
      foldl (λ sigs e,
               match e.2 with
               | DirNode _ =>
                   if pruned e.1 then sigs else walk (root ++ [e.1]) e.2 sigs
               | FileNode _ => sigs
               end) signatures1 entries
  end.

(** [_compute_file_signatures] on the tree under [self.root_path]; the
    result is what it stores in [self.context.file_signatures]. *)
Definition _compute_file_signatures (root : node) : gmap string string :=
  walk [] root ∅.
End signatures.

End IntelligentAnalyzer.


(** ** BuildStrategy, ProjectContext and the build patterns *)

Inductive BuildStrategy : Type :=
  | INTELLIGENT_PARALLEL
  | DEPENDENCY_GRAPH
  | INCREMENTAL_SMART
  | PREDICTIVE_CACHE
  | ADAPTIVE_LEARNING.

(** The fields of the dataclass that the functions below read or write.
    The hints are only ever set to [True]. *)
Module ProjectContext.
Record t : Type := Make {
  languages : list string;
  build_tools : list string;
  file_signatures : gmap string string;
  optimization_hints : dict bool
}.
End ProjectContext.

(** [any(x in present for x in wanted)] *)
Definition any_in (wanted present : list string) : bool :=
  existsb (λ x, bool_decide (x ∈ present)) wanted.

(** [IntelligentAnalyzer._infer_build_patterns] *)
Definition _infer_build_patterns (context : ProjectContext.t)
  : ProjectContext.t :=
  let hints : dict bool := [] in
  let hints :=
    if bool_decide (1 < length (ProjectContext.languages context))
    then dict_set "parallel_capable" true hints else hints in
  let hints :=
    if any_in ["webpack"; "rollup"; "tsc"]
         (ProjectContext.build_tools context)
    then dict_set "incremental_capable" true hints else hints in
  let hints :=
    if any_in ["javascript"; "typescript"; "rust"]
         (ProjectContext.languages context)
    then dict_set "cache_beneficial" true hints else hints in
  ProjectContext.Make
    (ProjectContext.languages context) (ProjectContext.build_tools context)
    (ProjectContext.file_signatures context) hints.

(** ** BuildOrchestrator

    What the functions print is left out.  The shell commands run
    through [subprocess.run], which is a parameter: its result may depend
    on the command and on the commands that ran before it. *)

Module BuildOrchestrator.

(** What [build_cache.json] decodes to: the object that
    [save_build_cache] writes, or any other value, on which
    [cached.get('signatures')] raises or differs from every signature
    map. *)
Inductive cache_json : Type :=
  | CacheData (signatures : gmap string string)
      (timestamp : QArith_base.Q) (build_tools : list string)
  | OtherJson.

(** The project directory as the orchestrator sees it: the names
    directly under [root_path], what reading [package.json] gives (the keys
    of its ['scripts'] object, none when it has no such field),
    [os.path.getmtime] of a relative path ([None] where it raises
    [OSError]), and [.thalos_cache/build_cache.json]. *)
Record project_dir : Type := ProjectDir {
  root_entries : gset string;
  package_json : SmartCache.file (list string);
  getmtime : string → option QArith_base.Q;
  build_cache : option (SmartCache.file cache_json)
}.

(** [(self.context.root_path / name).exists()] *)
Definition exists_ (name : string) (dir : project_dir) : bool :=
  bool_decide (name ∈ root_entries dir).

(** [hints.get(name)], as a truth value. *)
Definition hint (name : string) (context : ProjectContext.t) : bool :=
  default false (dict_get name (ProjectContext.optimization_hints context)).

Definition _has_valid_cache (context : ProjectContext.t) (dir : project_dir)
  : bool :=
  match build_cache dir with
  | Some (SmartCache.Holds (CacheData signatures _ _)) =>
      bool_decide (signatures = ProjectContext.file_signatures context)
  | Some (SmartCache.Holds OtherJson)
  | Some SmartCache.Unreadable | Some SmartCache.Malformed | None => false
  end.

Definition _select_optimal_strategy (context : ProjectContext.t)
    (dir : project_dir) : BuildStrategy :=
  if hint "cache_beneficial" context && _has_valid_cache context dir
  then PREDICTIVE_CACHE
  else if hint "incremental_capable" context then INCREMENTAL_SMART
  else if hint "parallel_capable" context then INTELLIGENT_PARALLEL
  else DEPENDENCY_GRAPH.

Definition _has_npm_script (script_name : string) (dir : project_dir) : bool :=
  if exists_ "package.json" dir then
    match package_json dir with
    | SmartCache.Holds scripts => bool_decide (script_name ∈ scripts)
    | SmartCache.Unreadable | SmartCache.Malformed => false
    end
  else false.

(** [commands.append(c)] under [if b]. *)
Definition append_if (b : bool) (c : list string) (commands : list string)
  : list string :=
  if b then commands ++ c else commands.

Definition _generate_build_commands (context : ProjectContext.t)
    (dir : project_dir) : list string :=
  let tool name := bool_decide (name ∈ ProjectContext.build_tools context) in
  let commands := [] in
  let commands :=
    if tool "pip" then
      append_if (exists_ "setup.py" dir) ["python setup.py build"]
        (append_if (exists_ "requirements.txt" dir)
           ["pip install -r requirements.txt"] commands)
    else commands in
  let commands :=
    append_if (tool "poetry") ["poetry install"; "poetry build"] commands in
  let commands :=
    if tool "npm" then
      append_if (_has_npm_script "build" dir) ["npm run build"]
        (commands ++ ["npm install"])
    else commands in
  let commands :=
    if tool "yarn" then
      append_if (_has_npm_script "build" dir) ["yarn build"]
        (commands ++ ["yarn install"])
    else commands in
  let commands := append_if (tool "cargo") ["cargo build --release"] commands in
  let commands := append_if (tool "go") ["go build ./..."] commands in
  let commands := append_if (tool "maven") ["mvn clean install"] commands in
  let commands := append_if (tool "gradle") ["gradle build"] commands in
  let commands :=
    append_if (tool "cmake")
      ["mkdir -p build && cd build"; "cmake .."; "make"] commands in
  append_if (tool "make" && negb (tool "cmake")) ["make"] commands.

(** The line feed of the message texts. *)
Definition nl : string := String "010"%char EmptyString.

(** How [subprocess.run] ends: with a return code and the two captured
    texts, with [TimeoutExpired], or with another exception whose
    [str] is [message]. *)
Inductive process : Type :=
  | Completed (returncode : Z) (stdout stderr : string)
  | TimeoutExpired
  | OtherException (message : string).

Section commands.
(** [subprocess.run(command, ...)] after the commands of [history]. *)
Variable subprocess_run : list string → string → process.

(** [_execute_command]; the command joins the history. *)
Definition _execute_command (command : string) (history : list string)
  : (bool * string) * list string :=
  (match subprocess_run history command with
   | Completed returncode stdout stderr =>
       (bool_decide (returncode = 0%Z),
        "STDOUT:" +:+ nl +:+ stdout +:+ nl +:+ nl +:+ "STDERR:" +:+ nl
        +:+ stderr)
   | TimeoutExpired => (false, "Command timed out after 5 minutes")
   | OtherException message =>
       (false, "Error executing command: " +:+ message)
   end,
   history ++ [command]).

(** The loop of [_execute_standard_builds], with its [break]. *)
Fixpoint standard_loop (build_commands : list string)
    (outputs : list string) (history : list string)
  : (bool * list string) * list string :=
  match build_commands with
  | [] => ((true, outputs), history)
  | cmd :: rest =>
      let '((success, output), history1) := _execute_command cmd history in
      let outputs1 := outputs ++ ["Command: " +:+ cmd +:+ nl +:+ output] in
      if success then standard_loop rest outputs1 history1
      else ((false, outputs1), history1)
  end.

Definition _execute_standard_builds (context : ProjectContext.t)
    (dir : project_dir) (history : list string)
  : (bool * string) * list string :=
  let build_commands := _generate_build_commands context dir in
  let '((overall_success, outputs), history1) :=
    standard_loop build_commands [] history in
  ((overall_success, String.concat (nl +:+ nl) outputs), history1).

(** The loop of [_parallel_build]. *)
Fixpoint parallel_loop (build_commands : list string)
    (results : list (bool * string)) (history : list string)
  : list (bool * string) * list string :=
  match build_commands with
  | [] => (results, history)
  | cmd :: rest =>
      let '(result, history1) := _execute_command cmd history in
      parallel_loop rest (results ++ [result]) history1
  end.

Definition _parallel_build (context : ProjectContext.t) (dir : project_dir)
    (history : list string) : (bool * string) * list string :=
  let build_commands := _generate_build_commands context dir in
  let '(results, history1) := parallel_loop build_commands [] history in
  let all_success := forallb fst results in
  let combined_output := String.concat (nl +:+ nl) (snd <$> results) in
  ((all_success, combined_output), history1).

Definition _graph_based_build := _execute_standard_builds.

Definition _incremental_build := _execute_standard_builds.

Definition _cached_build (history : list string)
  : (bool * string) * list string :=
  ((true, "Build succeeded (cached)"), history).

Definition _adaptive_build := _execute_standard_builds.

Definition orchestrate_build (strategy : BuildStrategy)
    (context : ProjectContext.t) (dir : project_dir)
    (history : list string) : (bool * string) * list string :=
  let strategy :=
    match strategy with
    | ADAPTIVE_LEARNING => _select_optimal_strategy context dir
    | _ => strategy
    end in
  match strategy with
  | INTELLIGENT_PARALLEL => _parallel_build context dir history
  | DEPENDENCY_GRAPH => _graph_based_build context dir history
  | INCREMENTAL_SMART => _incremental_build context dir history
  | PREDICTIVE_CACHE => _cached_build history
  | ADAPTIVE_LEARNING => _adaptive_build context dir history
  end.
End commands.

(** [max(max_mtime, mtime)] *)
Definition py_max (max_mtime mtime : QArith_base.Q) : QArith_base.Q :=
  if QArith_base.Qle_bool mtime max_mtime then max_mtime else mtime.

(** [save_build_cache]; the greatest modification time does not depend
    on the order in which the paths are taken. *)
Definition save_build_cache (context : ProjectContext.t) (dir : project_dir)
  : project_dir :=
  let max_mtime :=
    foldl (λ acc file_path,
             match getmtime dir file_path with
             | Some mtime => py_max acc mtime
             | None => acc
             end)
      (QArith_base.Qmake 0 1)
      (map_to_list (ProjectContext.file_signatures context)).*1 in
  let cache_data :=
    CacheData (ProjectContext.file_signatures context) max_mtime
      (ProjectContext.build_tools context) in
  ProjectDir (root_entries dir) (package_json dir) (getmtime dir)
    (Some (SmartCache.Holds cache_data)).

End BuildOrchestrator.

(** ** MetricsCollector

    [build] is the dictionary of one build, which [start_build] creates
    and [end_build] completes; its content plays no part in how the
    metrics file is kept. *)

Module MetricsCollector.

Section metrics.
Variable build : Type.

(** The collector: [self.metrics_file], which is absent or a file, and
    [self.current_build].  When the file decodes, it holds a list of
    builds, as [_save_metrics] writes it. *)
Record t : Type := Make {
  metrics_file : option (SmartCache.file (list build));
  current_build : option build
}.

Definition _save_metrics (self : t) : t :=
  match current_build self with
  | None => self
  | Some current =>
      let metrics :=
        match metrics_file self with
        | Some (SmartCache.Holds metrics) => metrics
        | Some SmartCache.Unreadable | Some SmartCache.Malformed | None => []
        end in
      let metrics := metrics ++ [current] in
      let metrics := drop (length metrics - 100) metrics in
      Make (Some (SmartCache.Holds metrics)) None
  end.

(** [end_build]; [update] is [self.current_build.update({...})] with the
    end time, the duration and the outcome. *)
Definition end_build (update : build → build) (self : t) : t :=
  match current_build self with
  | None => self
  | Some current =>
      _save_metrics (Make (metrics_file self) (Some (update current)))
  end.
End metrics.

End MetricsCollector.

(** ** PatternLearner

    The durations are floating-point numbers; their zero, sum and
    division by a count are parameters.  A function returns [None] where
    the Python raises, which leaves the dictionaries partly updated. *)

Module PatternLearner.

Section learner.
Variable float : Type.
Variable fzero : float.
Variable fadd : float → float → float.
Variable fdiv : float → Z → float.

(** The dictionary of one strategy. *)
Record strategy_data : Type := StrategyData {
  success_count : Z;
  failure_count : Z;
  avg_duration : float;
  total_duration : float;
  count : Z
}.

(** The dictionary of one project type. *)
Record project_data : Type := ProjectData {
  strategies : dict strategy_data;
  total_builds : Z
}.

(** The learner: [self.learning_file], which is absent or a file, and
    [self.patterns]. *)
Record t : Type := Make {
  learning_file : option (SmartCache.file (dict project_data));
  patterns : dict project_data
}.

Definition _load_patterns
    (learning_file : option (SmartCache.file (dict project_data)))
  : dict project_data :=
  match learning_file with
  | Some (SmartCache.Holds patterns) => patterns
  | Some SmartCache.Unreadable | Some SmartCache.Malformed | None => []
  end.

(** [__init__] *)
Definition init (learning_file : option (SmartCache.file (dict project_data)))
  : t :=
  Make learning_file (_load_patterns learning_file).

Definition _save_patterns (self : t) : t :=
  Make (Some (SmartCache.Holds (patterns self))) (patterns self).

Definition record_pattern (project_type strategy : string) (success : bool)
    (duration : float) (self : t) : option t :=
  let patterns :=
    if dict_mem project_type (patterns self) then patterns self
    else dict_set project_type (ProjectData [] 0) (patterns self) in
  project ← dict_get project_type patterns;
  let strategies :=
    if dict_mem strategy (strategies project) then strategies project
    else dict_set strategy (StrategyData 0 0 fzero fzero 0)
           (strategies project) in
  data ← dict_get strategy strategies;
  let data :=
    if success
    then StrategyData (success_count data + 1) (failure_count data)
           (avg_duration data) (total_duration data) (count data)
    else StrategyData (success_count data) (failure_count data + 1)
           (avg_duration data) (total_duration data) (count data) in
  let data :=
    StrategyData (success_count data) (failure_count data)
      (avg_duration data) (fadd (total_duration data) duration)
      (count data + 1) in
  if decide (count data = 0%Z) then None
  else
    let data :=
      StrategyData (success_count data) (failure_count data)
        (fdiv (total_duration data) (count data)) (total_duration data)
        (count data) in
    let project :=
      ProjectData (dict_set strategy data strategies)
        (total_builds project + 1) in
    Some (_save_patterns
            (Make (learning_file self)
               (dict_set project_type project patterns))).
End learner.

End PatternLearner.

(** * The vocabulary of the properties

    ** Dependency graphs *)

(** [a] depends on [b]: [b] is listed under the key [a]. *)
Definition edge (g : DependencyResolver.graph) (a b : string) : Prop :=
  b ∈ DependencyResolver.deps g a.

Definition acyclic (g : DependencyResolver.graph) : Prop :=
  ∀ x, ¬ tc (edge g) x x.

(** [x] stands before [y] in [l]. *)
Definition before (x y : string) (l : list string) : Prop :=
  ∃ l1 l2 l3, l = l1 ++ x :: l2 ++ y :: l3.

(** Consecutive elements of [l] are dependency edges. *)
Fixpoint chain (g : DependencyResolver.graph) (l : list string) : Prop :=
  match l with
  | x :: l' =>
      match l' with
      | y :: _ => edge g x y ∧ chain g l'
      | [] => True
      end
  | [] => True
  end.

(** A dependency path that leaves a node and comes back to it, meeting
    it nowhere in between and no other node twice. *)
Definition cycle_path (g : DependencyResolver.graph) (c : list string)
  : Prop :=
  ∃ n mid, c = n :: mid ++ [n] ∧ chain g c ∧ NoDup (n :: mid).

(** One of the reported cycles [cs] ends with the edge from [u] to [w],
    having started at [w]. *)
Definition closes (cs : list (list string)) (u w : string) : Prop :=
  ∃ pre, pre ++ [u; w] ∈ cs ∧ head (pre ++ [u]) = Some w.

(** Every cycle of the graph is among the reported ones, in the weakest
    sense: some reported cycle passes through all of its nodes. *)
Definition reports_every_cycle (fuel : nat) (g : DependencyResolver.graph)
  : Prop :=
  ∃ cycles,
    DependencyResolver.detect_cycles fuel g = Done cycles
    ∧ ∀ p, cycle_path g p → ∃ c, c ∈ cycles ∧ ∀ x, x ∈ p → x ∈ c.

(** The node names of the graph, keys and dependencies, with
    repetition.  The recursion of both traversals is at most one deeper
    than there are names. *)
Definition node_names (g : DependencyResolver.graph) : list string :=
  flat_map (λ item, item.1 :: item.2) g.

Definition enough_fuel (g : DependencyResolver.graph) : nat :=
  S (length (node_names g)).

(** All the node names of the graph, as a set. *)
Definition universe (g : DependencyResolver.graph) : gset string :=
  list_to_set (node_names g).

(** The graph of the cycle-reporting example. *)
Definition abc_cycle : DependencyResolver.graph :=
  DependencyResolver.add_dependency "C" ["A"]
    (DependencyResolver.add_dependency "B" ["C"]
       (DependencyResolver.add_dependency "A" ["B"] [])).

(** A graph with the two cycles A, B, A and A, C, B, A. *)
Definition two_cycles : DependencyResolver.graph :=
  DependencyResolver.add_dependency "C" ["B"]
    (DependencyResolver.add_dependency "B" ["A"]
       (DependencyResolver.add_dependency "A" ["B"; "C"] [])).

(** *** The invariant of [get_build_order] *)

(** Nodes that [visit] has entered and not yet appended. *)
Definition o_open (st : DependencyResolver.order_state) (x : string) : Prop :=
  x ∈ DependencyResolver.o_visited st ∧ x ∉ DependencyResolver.o_result st.

Record order_inv (g : DependencyResolver.graph)
    (st : DependencyResolver.order_state) : Prop := {
  order_inv_NoDup : NoDup (DependencyResolver.o_result st);
  order_inv_visited :
    ∀ x, x ∈ DependencyResolver.o_result st →
         x ∈ DependencyResolver.o_visited st;
  order_inv_before :
    ∀ x y, x ∈ DependencyResolver.o_result st → edge g x y →
           before y x (DependencyResolver.o_result st)
}.

Definition order_post (g : DependencyResolver.graph)
    (st st' : DependencyResolver.order_state) : Prop :=
  order_inv g st'
  ∧ (∃ ext, DependencyResolver.o_result st'
            = DependencyResolver.o_result st ++ ext)
  ∧ (∀ x, o_open st' x ↔ o_open st x).

Definition order_visit_ok (g : DependencyResolver.graph) (fuel : nat) : Prop :=
  ∀ node st st',
    order_inv g st →
    (∀ x, o_open st x → tc (edge g) x node) →
    DependencyResolver.order_visit fuel g node st = Done st' →
    order_post g st st' ∧ node ∈ DependencyResolver.o_result st'.

Definition order_visit_runs (g : DependencyResolver.graph) (fuel : nat)
  : Prop :=
  ∀ node st,
    node ∈ universe g →
    size (universe g ∖ DependencyResolver.o_visited st) < fuel →
    ∃ st', DependencyResolver.order_visit fuel g node st = Done st'
           ∧ DependencyResolver.o_visited st
             ⊆ DependencyResolver.o_visited st'.

(** *** The invariant of [detect_cycles]

    [fin] lists the nodes whose visit has returned, in the order of
    their return. *)
Record cycle_inv (g : DependencyResolver.graph)
    (st : DependencyResolver.cycle_state) (fin : list string) : Prop := {
  ci_stack_visited :
    DependencyResolver.c_rec_stack st ⊆ DependencyResolver.c_visited st;
  ci_genuine :
    ∀ c, c ∈ DependencyResolver.c_cycles st → cycle_path g c;
  ci_fin_NoDup : NoDup fin;
  ci_fin :
    ∀ x, x ∈ fin ↔ x ∈ DependencyResolver.c_visited st
                   ∧ x ∉ DependencyResolver.c_rec_stack st;
  ci_closed :
    ∀ u w, u ∈ fin → edge g u w →
           closes (DependencyResolver.c_cycles st) u w ∨ before w u fin
}.

Definition cycle_pre (g : DependencyResolver.graph) (path : list string)
    (st : DependencyResolver.cycle_state) (fin : list string) : Prop :=
  cycle_inv g st fin ∧ NoDup path
  ∧ ∀ x, x ∈ DependencyResolver.c_rec_stack st ↔ x ∈ path.

Definition cycle_post (g : DependencyResolver.graph)
    (st : DependencyResolver.cycle_state) (fin : list string)
    (st' : DependencyResolver.cycle_state) (fin' : list string) : Prop :=
  cycle_inv g st' fin'
  ∧ DependencyResolver.c_rec_stack st' = DependencyResolver.c_rec_stack st
  ∧ DependencyResolver.c_visited st ⊆ DependencyResolver.c_visited st'
  ∧ (∃ new, DependencyResolver.c_cycles st'
            = DependencyResolver.c_cycles st ++ new)
  ∧ (∃ ext, fin' = fin ++ ext).

(** What a call [visit(node, path)] leaves behind for [node]: its visit
    has returned, or it is on the path and the edge from the caller
    into it closes a reported cycle. *)
Definition cycle_settled (path : list string) (node : string)
    (st' : DependencyResolver.cycle_state) (fin' : list string) : Prop :=
  node ∈ fin'
  ∨ (node ∈ path
     ∧ ∀ p0 u, path = p0 ++ [u] →
               closes (DependencyResolver.c_cycles st') u node).

Definition cycle_visit_ok (g : DependencyResolver.graph) (fuel : nat) : Prop :=
  ∀ node path st fin,
    cycle_pre g path st fin →
    chain g (path ++ [node]) →
    node ∈ universe g →
    size (universe g ∖ DependencyResolver.c_visited st) < fuel →
    ∃ b st' fin',
      DependencyResolver.cycle_visit fuel g node path st = Done (b, st')
      ∧ cycle_post g st fin st' fin'
      ∧ cycle_settled path node st' fin'.

(** ** The cache directory *)




(** ** Project trees *)

Fixpoint has_slash (s : string) : bool :=
  match s with
  | EmptyString => false
  | String c s' => if Ascii.eqb c "/"%char then true else has_slash s'
  end.

(** A tree as a file system holds it: in every directory the names are
    distinct and have no separator in them. *)
Fixpoint wf (n : IntelligentAnalyzer.node) : bool :=
  match n with
  | IntelligentAnalyzer.FileNode _ => true
  | IntelligentAnalyzer.DirNode es =>
      bool_decide (NoDup es.*1)
      && forallb (λ e, negb (has_slash e.1) && wf e.2) es
  end.

(** The file [f] is at the relative path with the components [parts],
    and the walk reaches it: no directory on the way is pruned. *)
Inductive walked
  : list (string * IntelligentAnalyzer.node) → list string
    → IntelligentAnalyzer.file → Prop :=
  | walked_here entries name f :
      (name, IntelligentAnalyzer.FileNode f) ∈ entries →
      walked entries [name] f
  | walked_below entries name children parts f :
      (name, IntelligentAnalyzer.DirNode children) ∈ entries →
      IntelligentAnalyzer.pruned name = false →
      walked children parts f →
      walked entries (name :: parts) f.

(** The file [f] is at the relative path with the components [parts]. *)
Inductive tree_file
  : list (string * IntelligentAnalyzer.node) → list string
    → IntelligentAnalyzer.file → Prop :=
  | tree_file_here entries name f :
      (name, IntelligentAnalyzer.FileNode f) ∈ entries →
      tree_file entries [name] f
  | tree_file_below entries name children parts f :
      (name, IntelligentAnalyzer.DirNode children) ∈ entries →
      tree_file children parts f →
      tree_file entries (name :: parts) f.

(** No directory on the way to the last component is pruned. *)
Fixpoint kept (parts : list string) : Prop :=
  match parts with
  | d :: parts' =>
      match parts' with
      | [] => True
      | _ :: _ => IntelligentAnalyzer.pruned d = false ∧ kept parts'
      end
  | [] => True
  end.

(** The two trees hold the same files at the same paths, in whatever
    order their directories list them. *)
Definition same_files (t1 t2 : list (string * IntelligentAnalyzer.node))
  : Prop :=
  ∀ parts f, tree_file t1 parts f ↔ tree_file t2 parts f.

(** What the loop body stores for a file, if anything. *)
Definition signature_of (sha256_hexdigest : list byte → string)
    (f : IntelligentAnalyzer.file) : option string :=
  match IntelligentAnalyzer.st_size f with
  | Some size =>
      if bool_decide (size < 10000000)%Z then
        (λ content, String.substring 0 16 (sha256_hexdigest content))
          <$> IntelligentAnalyzer.read_bytes f
      else None
  | None => None
  end.

(** The files in the order in which the loops meet them, with their
    keys. *)
Fixpoint walk_files (root : list string) (n : IntelligentAnalyzer.node)
  : list (string * IntelligentAnalyzer.file) :=
  match n with
  | IntelligentAnalyzer.FileNode _ => []
  | IntelligentAnalyzer.DirNode entries =>
      (entries ≫= λ e,
         match e.2 with
         | IntelligentAnalyzer.FileNode f =>
             [(IntelligentAnalyzer.rel_path (root ++ [e.1]), f)]
         | IntelligentAnalyzer.DirNode _ => []
         end)
      ++ (entries ≫= λ e,
            match e.2 with
            | IntelligentAnalyzer.DirNode _ =>
                if IntelligentAnalyzer.pruned e.1 then []
                else walk_files (root ++ [e.1]) e.2
            | IntelligentAnalyzer.FileNode _ => []
            end)
  end.

(** Induction on trees, with the hypothesis for every entry of a
    directory. *)
Definition node_ind' (P : IntelligentAnalyzer.node → Prop)
    (Hfile : ∀ f, P (IntelligentAnalyzer.FileNode f))
    (Hdir : ∀ entries, Forall (λ e, P e.2) entries →
                       P (IntelligentAnalyzer.DirNode entries))
  : ∀ n, P n :=
  fix go (n : IntelligentAnalyzer.node) : P n :=
    match n with
    | IntelligentAnalyzer.FileNode f => Hfile f
    | IntelligentAnalyzer.DirNode entries =>
        Hdir entries
          ((fix go_entries (es : list (string * IntelligentAnalyzer.node))
              : Forall (λ e, P e.2) es :=
              match es with
              | [] => @List.Forall_nil _ (λ e, P e.2)
              | e :: es' =>
                  @List.Forall_cons _ (λ e, P e.2) e es' (go e.2)
                    (go_entries es')
              end) entries)
    end.

(** A project tree and the same tree listed in another order, for the
    examples: a small file, a file that cannot be read, a file of ten
    million bytes, and a pruned directory. *)
Definition small_file : IntelligentAnalyzer.file :=
  IntelligentAnalyzer.File (Some 3%Z) (Some [x61; x62; x63]).

Definition locked_file : IntelligentAnalyzer.file :=
  IntelligentAnalyzer.File (Some 5%Z) None.

Definition big_file : IntelligentAnalyzer.file :=
  IntelligentAnalyzer.File (Some 10000000%Z) (Some []).

Definition src_dir : list (string * IntelligentAnalyzer.node) :=
  [("main.py", IntelligentAnalyzer.FileNode small_file);
   ("secret.key", IntelligentAnalyzer.FileNode locked_file)].

Definition project : list (string * IntelligentAnalyzer.node) :=
  [("data.bin", IntelligentAnalyzer.FileNode big_file);
   ("src", IntelligentAnalyzer.DirNode src_dir);
   (".git", IntelligentAnalyzer.DirNode
              [("HEAD", IntelligentAnalyzer.FileNode small_file)])].

Definition project_reordered : list (string * IntelligentAnalyzer.node) :=
  [(".git", IntelligentAnalyzer.DirNode
              [("HEAD", IntelligentAnalyzer.FileNode small_file)]);
   ("src", IntelligentAnalyzer.DirNode (reverse src_dir));
   ("data.bin", IntelligentAnalyzer.FileNode big_file)].

(** A stand-in for the digest in the examples. *)
Definition constant_digest (content : list byte) : string :=
  "e3b0c44298fc1c149afbf4c8996fb92427ae41e4649b934ca495991b7852b855".

(** ** Build orders of arbitrary graphs *)

(** A key of the graph or a dependency listed under one. *)
Definition is_node (g : DependencyResolver.graph) (x : string) : Prop :=
  x ∈ dict_keys g ∨ ∃ k, edge g k x.

(** The invariant of [get_build_order] on a graph that may have cycles:
    a dependency of an appended node is visited, and it stands before
    the node unless it also depends on the node. *)
Record order_any_inv (g : DependencyResolver.graph)
    (st : DependencyResolver.order_state) : Prop := {
  order_any_NoDup : NoDup (DependencyResolver.o_result st);
  order_any_visited :
    ∀ x, x ∈ DependencyResolver.o_result st →
         x ∈ DependencyResolver.o_visited st;
  order_any_universe :
    ∀ x, x ∈ DependencyResolver.o_visited st → is_node g x;
  order_any_edge :
    ∀ x y, x ∈ DependencyResolver.o_result st → edge g x y →
           y ∈ DependencyResolver.o_visited st
           ∧ (before y x (DependencyResolver.o_result st) ∨ tc (edge g) y x)
}.

Definition order_any_post (g : DependencyResolver.graph)
    (st st' : DependencyResolver.order_state) : Prop :=
  order_any_inv g st'
  ∧ (∃ ext, DependencyResolver.o_result st'
            = DependencyResolver.o_result st ++ ext)
  ∧ (∀ x, o_open st' x ↔ o_open st x)
  ∧ DependencyResolver.o_visited st ⊆ DependencyResolver.o_visited st'.

Definition order_any_visit_ok (g : DependencyResolver.graph) (fuel : nat)
  : Prop :=
  ∀ node st st',
    order_any_inv g st →
    is_node g node →
    (∀ x, o_open st x → tc (edge g) x node) →
    DependencyResolver.order_visit fuel g node st = Done st' →
    order_any_post g st st' ∧ node ∈ DependencyResolver.o_visited st'.

(** ** Sequences of cache operations *)





(** ** Running build commands *)

(** The command succeeds when it runs after the commands of [history]. *)
Definition succeeds (subprocess_run : list string → string → BuildOrchestrator.process)
    (history : list string) (command : string) : bool :=
  (BuildOrchestrator._execute_command subprocess_run command history).1.1.

(** Every command succeeds when they run one after the other. *)
Fixpoint all_succeed
    (subprocess_run : list string → string → BuildOrchestrator.process)
    (history : list string) (commands : list string) : bool :=
  match commands with
  | [] => true
  | command :: rest =>
      succeeds subprocess_run history command
      && all_succeed subprocess_run (history ++ [command]) rest
  end.

(** For the examples: a shell in which every command but [make] returns
    code 0, a project directory with no entry, and a context with the
    build tool cmake. *)
Definition shell (history : list string) (command : string)
  : BuildOrchestrator.process :=
  if String.eqb command "make" then BuildOrchestrator.Completed 2 EmptyString "no rule"
  else BuildOrchestrator.Completed 0 EmptyString EmptyString.

Definition bare_dir : BuildOrchestrator.project_dir :=
  BuildOrchestrator.ProjectDir ∅ SmartCache.Malformed (λ _, None) None.

Definition cmake_context : ProjectContext.t :=
  ProjectContext.Make ["cpp"] ["cmake"; "make"] ∅ [].

(** ** Recorded build patterns *)

(** One call of [record_pattern]. *)
Record pattern_call (float : Type) : Type := PatternCall {
  call_project : string;
  call_strategy : string;
  call_success : bool;
  call_duration : float
}.
Arguments PatternCall {float}.
Arguments call_project {float}.
Arguments call_strategy {float}.
Arguments call_success {float}.
Arguments call_duration {float}.

(** The calls one after the other; [None] as soon as one raises. *)
Definition record_all {float : Type} (fzero : float)
    (fadd : float → float → float) (fdiv : float → Z → float)
    (calls : list (pattern_call float)) (self : PatternLearner.t float)
  : option (PatternLearner.t float) :=
  foldl (λ acc call,
           self ← acc;
           PatternLearner.record_pattern float fzero fadd fdiv
             (call_project call) (call_strategy call) (call_success call)
             (call_duration call) self)
    (Some self) calls.

(** How many of the calls satisfy [P]. *)
Definition tally {A} (P : A → bool) (calls : list A) : Z :=
  Z.of_nat (length (List.filter P calls)).

Definition for_project {float} (project : string) (call : pattern_call float)
  : bool :=
  bool_decide (call_project call = project).

Definition for_strategy {float} (project strategy : string)
    (call : pattern_call float) : bool :=
  bool_decide (call_project call = project)
  && bool_decide (call_strategy call = strategy).

(** The dictionary of a strategy of a project type, if there is one. *)
Definition strategy_lookup {float} (project strategy : string)
    (patterns : dict (PatternLearner.project_data float))
  : option (PatternLearner.strategy_data float) :=
  data ← dict_get project patterns;
  dict_get strategy (PatternLearner.strategies float data).

(** The counters of the learner are those of the calls. *)
Definition counts_match {float} (self : PatternLearner.t float)
    (calls : list (pattern_call float)) : Prop :=
  (∀ project strategy,
     match strategy_lookup project strategy (PatternLearner.patterns float self)
     with
     | Some data =>
         PatternLearner.count float data
         = tally (for_strategy project strategy) calls
         ∧ PatternLearner.success_count float data
           = tally (λ call, for_strategy project strategy call
                            && call_success call) calls
         ∧ PatternLearner.failure_count float data
           = tally (λ call, for_strategy project strategy call
                            && negb (call_success call)) calls
     | None => tally (for_strategy project strategy) calls = 0%Z
     end)
  ∧ (∀ project,
       match dict_get project (PatternLearner.patterns float self) with
       | Some data =>
           PatternLearner.total_builds float data
           = tally (for_project project) calls
       | None => tally (for_project project) calls = 0%Z
       end).

(** ** Generated build commands *)

(** The commands that [_generate_build_commands] can append, in the
    order of its [if] statements: those of the tools before cmake, then
    all of them. *)
Definition commands_before_cmake : list string :=
  ["pip install -r requirements.txt"; "python setup.py build";
   "poetry install"; "poetry build";
   "npm install"; "npm run build";
   "yarn install"; "yarn build";
   "cargo build --release"; "go build ./..."; "mvn clean install";
   "gradle build"].

Definition all_build_commands : list string :=
  commands_before_cmake ++ ["mkdir -p build && cd build"; "cmake .."; "make"].

(** * Properties *)

(** ** Dictionaries *)

Section dict_facts.
Context {V : Type}.
Implicit Types (d : dict V) (k : string) (v : V).

Lemma dict_get_set_eq d k v : dict_get k (dict_set k v d) = Some v.
Proof.
  induction d as [|[k' v'] d IH]; simpl.
  - by rewrite decide_True.
  - destruct (decide (k' = k)) as [->|Hne]; simpl.
    + by rewrite decide_True.
    + by rewrite decide_False.
Qed.

Lemma dict_get_set_ne d k k' v :
  k ≠ k' → dict_get k' (dict_set k v d) = dict_get k' d.
Proof.
  intros Hne. induction d as [|[k0 v0] d IH]; simpl.
  - by rewrite decide_False.
  - destruct (decide (k0 = k)) as [->|Hne0]; simpl.
    + by rewrite !decide_False.
    + by rewrite IH.
Qed.



Lemma dict_get_Some d k v : dict_get k d = Some v → (k, v) ∈ d.
Proof.
  induction d as [|[k' v'] d IH]; simpl; [done|].
  destruct (decide (k' = k)) as [->|Hne].
  - intros [= ->]. left.
  - intros H. right. auto.
Qed.

Lemma dict_get_elem d k v :
  NoDup (dict_keys d) → (k, v) ∈ d → dict_get k d = Some v.
Proof.
  unfold dict_keys. induction d as [|[k' v'] d IH]; csimpl.
  - by intros _ ?%elem_of_nil.
  - intros [Hk' Hnd]%NoDup_cons [[= -> ->]|Hin]%elem_of_cons.
    + by rewrite decide_True.
    + rewrite decide_False; [by apply IH|].
      intros ->. apply Hk', list_elem_of_fmap. by exists (k, v).
Qed.

Lemma dict_get_is_Some d k : is_Some (dict_get k d) ↔ k ∈ dict_keys d.
Proof.
  unfold dict_keys. induction d as [|[k' v'] d IH]; simpl.
  - split; [by intros [? ?]|by intros ?%elem_of_nil].
  - destruct (decide (k' = k)) as [->|Hne].
    + split; [intros _; left|eauto].
    + rewrite IH, elem_of_cons. split; [by right|by intros [?|?]].
Qed.





End dict_facts.

(** ** Loops *)

Lemma bind_Done {A B} (m : outcome A) (k : A → outcome B) b :
  m ≫= k = Done b ↔ ∃ a, m = Done a ∧ k a = Done b.
Proof.
  destruct m as [a| |]; simpl; split; try done; eauto.
  - by intros (a' & [= <-] & ?).
  - by intros (? & ? & ?).
  - by intros (? & ? & ?).
Qed.

Lemma for_each_cons_Done {S A} (body : A → S → outcome S) x l st st' :
  for_each body (x :: l) st = Done st'
  ↔ ∃ st1, body x st = Done st1 ∧ for_each body l st1 = Done st'.
Proof. simpl. apply bind_Done. Qed.

(** ** Dependency graphs *)

Section resolver.
Import DependencyResolver.
Variable g : graph.

Lemma before_app_r x y l ext : before x y l → before x y (l ++ ext).
Proof.
  intros (l1 & l2 & l3 & ->). exists l1, l2, (l3 ++ ext).
  by rewrite <-!app_assoc, <-!app_comm_cons, <-app_assoc.
Qed.

Lemma before_snoc x y l : x ∈ l → before x y (l ++ [y]).
Proof.
  intros (l1 & l2 & ->)%list_elem_of_split. exists l1, l2, [].
  by rewrite <-app_assoc.
Qed.

Lemma edge_key a b : edge g a b → a ∈ dict_keys g.
Proof.
  unfold edge, deps. intros H. apply dict_get_is_Some.
  destruct (dict_get a g); [eauto|]. by apply elem_of_nil in H.
Qed.

Lemma edge_node_names a b :
  edge g a b → a ∈ node_names g ∧ b ∈ node_names g.
Proof.
  unfold edge, deps, node_names. intros H.
  destruct (dict_get a g) as [l|] eqn:Hl; [|by apply elem_of_nil in H].
  apply dict_get_Some in Hl. simpl in H.
  split; apply list_elem_of_In, in_flat_map; exists (a, l);
    (split; [by apply list_elem_of_In|]); simpl; [by left|].
  right. by apply list_elem_of_In.
Qed.

Lemma key_node_names a : a ∈ dict_keys g → a ∈ node_names g.
Proof.
  unfold dict_keys, node_names. intros ([k l] & -> & Hin)%list_elem_of_fmap.
  apply list_elem_of_In, in_flat_map. exists (k, l).
  split; [by apply list_elem_of_In|]. by left.
Qed.

(** *** The build order *)

Lemma order_post_trans st1 st2 st3 :
  order_post g st1 st2 → order_post g st2 st3 → order_post g st1 st3.
Proof.
  intros (_ & [e1 He1] & Ho1) (Hi & [e2 He2] & Ho2). split_and!; [done| |].
  - exists (e1 ++ e2). by rewrite He2, He1, app_assoc.
  - intros x. by rewrite Ho2.
Qed.

Lemma order_loop_ok fuel :
  order_visit_ok g fuel →
  ∀ ds st st',
    order_inv g st →
    (∀ d x, d ∈ ds → o_open st x → tc (edge g) x d) →
    for_each (order_visit fuel g) ds st = Done st' →
    order_post g st st' ∧ ∀ d, d ∈ ds → d ∈ o_result st'.
Proof.
  intros Hvisit ds. induction ds as [|d ds IH]; intros st st' Hinv Hopen.
  - intros [= <-]. split; [|by intros ? ?%elem_of_nil].
    split_and!; [done|exists []; by rewrite app_nil_r|done].
  - intros (st1 & Hd & Hrest)%for_each_cons_Done.
    destruct (Hvisit d st st1) as [Hpost1 Hd1]; [done| |done|].
    { intros x Hx. apply (Hopen d); [left|done]. }
    destruct (IH st1 st') as [Hpost2 Hds]; [apply Hpost1| |done|].
    { intros d' x Hd' Hx. apply (Hopen d'); [by right|].
      by apply Hpost1. }
    split; [by eapply order_post_trans|].
    intros d' [->|Hd']%elem_of_cons; [|by auto].
    destruct Hpost2 as (_ & [ext ->] & _). apply elem_of_app; by left.
Qed.

Lemma order_visit_all_ok (Hacyclic : acyclic g) fuel : order_visit_ok g fuel.
Proof.
  induction fuel as [|fuel IH]; intros node st st' Hinv Hopen; simpl; [done|].
  destruct (decide (node ∈ o_visited st)) as [Hin|Hnin].
  - intros [= <-]. split.
    + split_and!; [done|exists []; by rewrite app_nil_r|done].
    + destruct (decide (node ∈ o_result st)) as [|Hres]; [done|].
      destruct (Hacyclic node). by apply Hopen.
  - intros (st2 & Hloop & [= <-])%bind_Done.
    set (st1 := OrderState ({[node]} ∪ o_visited st) (o_result st)) in *.
    assert (Hres : node ∉ o_result st).
    { intros ?. by apply Hnin, Hinv. }
    assert (Hopen1 : ∀ x, o_open st1 x ↔ o_open st x ∨ x = node).
    { intros x. unfold o_open, st1; simpl. rewrite elem_of_union,
        elem_of_singleton. split; [naive_solver|].
      intros [[? ?]| ->]; auto. }
    destruct (order_loop_ok fuel IH (deps g node) st1 st2)
      as [(Hinv2 & [ext Hext] & Hopen2) Hds]; [| |done|].
    { destruct Hinv as [? Hv ?]. split; simpl; [done| |done].
      intros x ?. apply elem_of_union; right. by apply Hv. }
    { intros d x Hd [Hx| ->]%Hopen1.
      - eapply tc_r; [by apply Hopen|done].
      - by apply tc_once. }
    simpl in Hext.
    assert (Hnode2 : o_open st2 node).
    { apply Hopen2, Hopen1. by right. }
    split; [split_and!|]; simpl.
    + destruct Hinv2 as [Hnd Hv Hb]. split; simpl.
      * apply NoDup_app. split_and!; [done| |apply NoDup_singleton].
        intros x Hx ->%list_elem_of_singleton. by apply Hnode2.
      * intros x [Hx| ->%list_elem_of_singleton]%elem_of_app; [by auto|].
        apply Hnode2.
      * intros x y [Hx| ->%list_elem_of_singleton]%elem_of_app Hxy.
        -- by apply before_app_r, Hb.
        -- by apply before_snoc, Hds.
    + exists (ext ++ [node]). by rewrite Hext, app_assoc.
    + intros x. unfold o_open at 1; simpl.
      rewrite elem_of_app, list_elem_of_singleton.
      split.
      * intros [Hx Hnx].
        assert (o_open st1 x) as [?| ->]%Hopen1; [|done|naive_solver].
        apply Hopen2. split; [done|naive_solver].
      * intros Hx. assert (o_open st2 x) as [? ?].
        { apply Hopen2, Hopen1. by left. }
        split; [done|]. intros [?| ->]; [done|]. by destruct Hx.
    + apply elem_of_app; right. by left.
Qed.

(** *** Recursion depth *)

Lemma universe_size : size (universe g) ≤ length (node_names g).
Proof.
  unfold universe. induction (node_names g) as [|x l IH].
  - by rewrite list_to_set_nil, size_empty.
  - rewrite list_to_set_cons, size_union_alt, size_singleton. simpl.
    assert (size (list_to_set l ∖ {[x]} : gset string) ≤ size (list_to_set l : gset string)).
    { apply subseteq_size. set_solver. }
    lia.
Qed.

Lemma universe_edge a b : edge g a b → b ∈ universe g.
Proof. intros [_ H]%edge_node_names. by apply elem_of_list_to_set. Qed.

Lemma universe_key a : a ∈ dict_keys g → a ∈ universe g.
Proof. intros H%key_node_names. by apply elem_of_list_to_set. Qed.

Lemma universe_enter (visited : gset string) node fuel :
  node ∈ universe g → node ∉ visited →
  size (universe g ∖ visited) < S fuel →
  size (universe g ∖ ({[node]} ∪ visited)) < fuel.
Proof.
  intros Hu Hv Hlt.
  assert (size (universe g ∖ ({[node]} ∪ visited)) < size (universe g ∖ visited)); [|lia].
  apply subset_size. split; [set_solver|].
  intros Hsub. assert (node ∈ universe g ∖ ({[node]} ∪ visited)); set_solver.
Qed.

Lemma universe_grow (visited visited' : gset string) fuel :
  visited ⊆ visited' →
  size (universe g ∖ visited) < fuel → size (universe g ∖ visited') < fuel.
Proof.
  intros Hsub Hlt.
  assert (size (universe g ∖ visited') ≤ size (universe g ∖ visited)); [|lia].
  apply subseteq_size. set_solver.
Qed.

Lemma order_loop_runs fuel :
  order_visit_runs g fuel →
  ∀ ds st,
    (∀ d, d ∈ ds → d ∈ universe g) →
    size (universe g ∖ o_visited st) < fuel →
    ∃ st', for_each (order_visit fuel g) ds st = Done st'
           ∧ o_visited st ⊆ o_visited st'.
Proof.
  intros Hvisit ds. induction ds as [|d ds IH]; intros st Hds Hfuel.
  - by exists st.
  - destruct (Hvisit d st) as (st1 & Hd & Hsub1); [apply Hds; left|done|].
    destruct (IH st1) as (st' & Hrest & Hsub2).
    { intros d' ?. apply Hds. by right. }
    { by eapply universe_grow. }
    exists st'. split; [|by etrans].
    apply for_each_cons_Done. eauto.
Qed.

Lemma order_visit_all_runs fuel : order_visit_runs g fuel.
Proof.
  induction fuel as [|fuel IH]; intros node st Hnode Hfuel; [lia|]. simpl.
  destruct (decide (node ∈ o_visited st)) as [Hin|Hnin]; [by exists st|].
  destruct (order_loop_runs fuel IH (deps g node)
              (OrderState ({[node]} ∪ o_visited st) (o_result st)))
    as (st2 & -> & Hsub); simpl.
  - intros d Hd. by apply (universe_edge node).
  - by apply universe_enter.
  - eexists. split; [done|]. simpl in *. set_solver.
Qed.

Lemma enough_fuel_universe (visited : gset string) fuel :
  enough_fuel g ≤ fuel → size (universe g ∖ visited) < fuel.
Proof.
  unfold enough_fuel. intros Hfuel. pose proof universe_size.
  assert (size (universe g ∖ visited) ≤ size (universe g)); [|lia].
  apply subseteq_size. set_solver.
Qed.

Lemma order_init_inv : order_inv g order_init.
Proof.
  split; simpl; [apply NoDup_nil_2| |].
  - by intros x ?%elem_of_nil.
  - by intros x y ?%elem_of_nil.
Qed.

Lemma get_build_order_runs fuel :
  enough_fuel g ≤ fuel →
  ∃ st, for_each (order_visit fuel g) (dict_keys g) order_init = Done st
        ∧ get_build_order fuel g = Done (o_result st).
Proof.
  intros Hfuel.
  destruct (order_loop_runs fuel (order_visit_all_runs fuel) (dict_keys g)
              order_init) as (st & Hst & _).
  - apply universe_key.
  - by apply enough_fuel_universe.
  - exists st. split; [done|]. unfold get_build_order. by rewrite Hst.
Qed.
End resolver.

Lemma acyclic_by_rank (g : DependencyResolver.graph) (rank : string → nat) :
  (∀ a b, edge g a b → rank b < rank a) → acyclic g.
Proof.
  intros Hrank x Hx.
  assert (∀ a b, tc (edge g) a b → rank b < rank a) as Hlt; [|specialize (Hlt _ _ Hx); lia].
  induction 1 as [a b Hab|a b c Hab _ IH]; [by apply Hrank|].
  apply Hrank in Hab. lia.
Qed.

(** C1. In an acyclic graph, whenever [a] depends on [b], the build order
    lists [b] before [a]; [b] need not be a key of the graph.  The order
    is returned for every recursion budget of at least [enough_fuel g] and
    lists no node twice. *)
Theorem build_order_dependencies_first
    (g : DependencyResolver.graph) (a b : string) (fuel : nat) :
  acyclic g → edge g a b → enough_fuel g ≤ fuel →
  ∃ order,
    DependencyResolver.get_build_order fuel g = Done order
    ∧ NoDup order ∧ before b a order.
Proof.
  intros Hacyclic Hab Hfuel.
  destruct (get_build_order_runs g fuel Hfuel) as (st & Hst & ->).
  destruct (order_loop_ok g fuel (order_visit_all_ok g Hacyclic fuel)
              (dict_keys g) DependencyResolver.order_init st)
    as [(Hinv & _ & _) Hkeys]; [apply order_init_inv| |done|].
  { intros d x _ [Hx _]. by apply elem_of_empty in Hx. }
  exists (DependencyResolver.o_result st). split_and!; [done|apply Hinv|].
  apply Hinv; [|done]. by apply Hkeys, (edge_key g a b).
Qed.

Lemma build_order_dependencies_first_witness :
  ∃ order,
    DependencyResolver.get_build_order 3 [("app", ["lib"])] = Done order
    ∧ NoDup order ∧ before "lib" "app" order.
Proof.
  apply (build_order_dependencies_first [("app", ["lib"])] "app" "lib" 3).
  - apply (acyclic_by_rank _ (λ x, if decide (x = "app") then 1 else 0)).
    intros a b. unfold edge, DependencyResolver.deps. simpl.
    destruct (decide ("app" = a)) as [<-|]; simpl.
    + intros ->%list_elem_of_singleton. simpl. lia.
    + by intros ?%elem_of_nil.
  - unfold edge. simpl. left.
  - vm_compute. lia.
Defined.

(** ** Cycle detection *)

Section cycles.
Import DependencyResolver.
Variable g : graph.

Lemma chain_app l1 l2 :
  chain g (l1 ++ l2)
  ↔ chain g l1 ∧ chain g l2
    ∧ ∀ x y, last l1 = Some x → head l2 = Some y → edge g x y.
Proof.
  induction l1 as [|a l1 IH].
  - simpl. split; [|by intros (_ & ? & _)]. intros ?. by split_and!.
  - destruct l1 as [|b l1].
    + destruct l2 as [|y l2]; simpl.
      * split; [|done]. intros _. by split_and!.
      * split.
        -- intros [? ?]. split_and!; [done..|]. by intros ?? [= <-] [= <-].
        -- intros (_ & ? & H). split; [|done]. by apply H.
    + change ((a :: b :: l1) ++ l2) with (a :: (b :: l1) ++ l2).
      change (chain g (a :: (b :: l1) ++ l2))
        with (edge g a b ∧ chain g ((b :: l1) ++ l2)).
      change (chain g (a :: b :: l1)) with (edge g a b ∧ chain g (b :: l1)).
      rewrite IH, last_cons_cons. tauto.
Qed.

Lemma chain_drop l i : chain g l → chain g (drop i l).
Proof.
  rewrite <-(take_drop i l) at 1. rewrite chain_app. tauto.
Qed.

Lemma chain_tc l x y : chain g (x :: l ++ [y]) → tc (edge g) x y.
Proof.
  revert x. induction l as [|z l IH]; intros x.
  - simpl. intros [? _]. by apply tc_once.
  - intros [Hxz Hrest]. eapply tc_l; [done|]. by apply IH.
Qed.

Lemma cycle_path_tc c : cycle_path g c → ∃ n, n ∈ c ∧ tc (edge g) n n.
Proof.
  intros (n & mid & -> & Hchain & _). exists n.
  split; [left|by eapply chain_tc].
Qed.

Lemma closes_mono cs new u w : closes cs u w → closes (cs ++ new) u w.
Proof.
  intros (pre & Hin & Hhd). exists pre. split; [|done].
  apply elem_of_app. by left.
Qed.

Lemma list_index_elem node path :
  node ∈ path → ∃ i, list_index node path = Some i ∧ path !! i = Some node.
Proof.
  induction path as [|x path IH]; [by intros ?%elem_of_nil|].
  intros Hin. simpl. destruct (decide (x = node)) as [->|Hne].
  - by exists 0.
  - apply elem_of_cons in Hin as [->|Hin]; [done|].
    destruct (IH Hin) as (i & -> & Hi). by exists (S i).
Qed.

(** *** The invariant of the traversal *)

Lemma cycle_post_refl st fin : cycle_inv g st fin → cycle_post g st fin st fin.
Proof.
  intros ?. split_and!; [done..| |]; exists []; by rewrite app_nil_r.
Qed.

Lemma cycle_post_trans st1 fin1 st2 fin2 st3 fin3 :
  cycle_post g st1 fin1 st2 fin2 → cycle_post g st2 fin2 st3 fin3 →
  cycle_post g st1 fin1 st3 fin3.
Proof.
  intros (_ & Hr1 & Hv1 & [n1 Hn1] & [e1 He1])
         (Hi & Hr2 & Hv2 & [n2 Hn2] & [e2 He2]).
  split_and!; [done|congruence|by etrans| |].
  - exists (n1 ++ n2). by rewrite Hn2, Hn1, app_assoc.
  - exists (e1 ++ e2). by rewrite He2, He1, app_assoc.
Qed.

Lemma cycle_settled_mono path node st fin st' fin' :
  cycle_post g st fin st' fin' →
  cycle_settled path node st fin → cycle_settled path node st' fin'.
Proof.
  intros (_ & _ & _ & [new Hnew] & [ext ->]) [Hfin|[Hpath Hcl]].
  - left. apply elem_of_app. by left.
  - right. split; [done|]. intros p0 u Hp. rewrite Hnew.
    apply closes_mono. by eapply Hcl.
Qed.

Lemma cycle_loop_ok fuel :
  cycle_visit_ok g fuel →
  ∀ ds path st fin,
    cycle_pre g path st fin →
    (∀ d, d ∈ ds → chain g (path ++ [d]) ∧ d ∈ universe g) →
    size (universe g ∖ c_visited st) < fuel →
    ∃ st' fin',
      for_each (λ dep s, r ← cycle_visit fuel g dep path s; Done r.2)
               ds st = Done st'
      ∧ cycle_post g st fin st' fin'
      ∧ ∀ d, d ∈ ds → cycle_settled path d st' fin'.
Proof.
  intros Hvisit ds path.
  induction ds as [|d ds IH]; intros st fin Hpre Hds Hfuel.
  - exists st, fin. split_and!; [done|apply cycle_post_refl, Hpre|].
    by intros ? ?%elem_of_nil.
  - destruct (Hds d) as [Hchain Hd]; [left|].
    destruct (Hvisit d path st fin) as (b & st1 & fin1 & Hrun & Hpost1 & Hset1);
      [done..|].
    destruct (IH st1 fin1) as (st' & fin' & Hrest & Hpost2 & Hset2).
    { destruct Hpre as (_ & ? & Hstack).
      destruct Hpost1 as (? & Hrec & _). split_and!; [done..|].
      intros x. by rewrite Hrec. }
    { intros d' ?. apply Hds. by right. }
    { eapply universe_grow; [|done]. apply Hpost1. }
    exists st', fin'. split_and!.
    + apply for_each_cons_Done. exists st1. split; [|done].
      by rewrite Hrun.
    + by eapply cycle_post_trans.
    + intros d' [->|Hd']%elem_of_cons; [|by auto].
      by eapply cycle_settled_mono.
Qed.

Lemma cycle_report_ok node path st fin i :
  cycle_pre g path st fin →
  chain g (path ++ [node]) →
  path !! i = Some node →
  let st' := CycleState (c_cycles st ++ [drop i path ++ [node]])
                        (c_visited st) (c_rec_stack st) in
  cycle_post g st fin st' fin ∧ cycle_settled path node st' fin.
Proof.
  intros ([Hsv Hgen Hnd Hfin Hcl] & Hpath & Hstack) Hchain Hi st'.
  assert (i < length path) as Hlt by by eapply lookup_lt_Some.
  split; [split_and!|]; simpl; [|done|done| |exists []; by rewrite app_nil_r|].
  - split; simpl; [done| |done|done|].
    + intros c [Hc| ->%list_elem_of_singleton]%elem_of_app; [by auto|].
      exists node, (drop (S i) path). split_and!.
      * by rewrite (drop_S _ _ _ Hi).
      * rewrite <-drop_app_le by lia. by apply chain_drop.
      * rewrite <-(drop_S _ _ _ Hi).
        eapply sublist_NoDup; [done|apply sublist_drop].
    + intros u w Hu Huw. destruct (Hcl u w Hu Huw) as [?|?]; [|by right].
      left. by apply closes_mono.
  - by eexists.
  - right. split; [by eapply list_elem_of_lookup_2|].
    intros p0 u ->. exists (drop i p0). subst st'. simpl.
    rewrite length_app in Hlt; simpl in Hlt.
    rewrite drop_app_le by lia. split.
    + apply elem_of_app; right. apply list_elem_of_singleton.
      by rewrite <-app_assoc.
    + rewrite <-drop_app_le by lia. by rewrite (drop_S _ _ _ Hi).
Qed.

Lemma cycle_visit_all_ok fuel : cycle_visit_ok g fuel.
Proof.
  induction fuel as [|fuel IH];
    intros node path st fin Hpre Hchain Hnode Hfuel; [lia|].
  simpl. destruct (decide (node ∈ c_rec_stack st)) as [Hrec|Hrec].
  { assert (node ∈ path) as (i & -> & Hi)%list_index_elem by by apply Hpre.
    destruct (cycle_report_ok node path st fin i) as [? ?]; [done..|].
    by eexists _, _, fin. }
  destruct (decide (node ∈ c_visited st)) as [Hvis|Hvis].
  { exists false, st, fin. split_and!; [done|apply cycle_post_refl, Hpre|].
    left. by apply Hpre. }
  destruct Hpre as ([Hsv Hgen Hnd Hfin Hcl] & Hpath & Hstack).
  set (st1 := CycleState (c_cycles st) ({[node]} ∪ c_visited st)
                         ({[node]} ∪ c_rec_stack st)).
  destruct (cycle_loop_ok fuel IH (deps g node) (path ++ [node]) st1 fin)
    as (st2 & fin2 & -> & (Hinv2 & Hrec2 & Hvis2 & [new Hnew] & [ext ->]) & Hset).
  { split_and!.
    - split; simpl; [set_solver|done..| |done].
      intros x. rewrite Hfin. set_solver.
    - apply NoDup_app. split_and!; [done| |apply NoDup_singleton].
      intros x Hx ->%list_elem_of_singleton. by apply Hrec, Hstack.
    - intros x. simpl. rewrite elem_of_app, list_elem_of_singleton.
      rewrite <-Hstack. set_solver. }
  { intros d Hd. split; [|by apply (universe_edge g node)].
    apply chain_app. split_and!; [done..|].
    intros x y. rewrite last_snoc. by intros [= <-] [= <-]. }
  { by apply universe_enter. }
  simpl in Hrec2, Hvis2, Hnew. simpl.
  destruct Hinv2 as [Hsv2 Hgen2 Hnd2 Hfin2 Hcl2].
  rewrite decide_True by (rewrite Hrec2; set_solver).
  assert (Hnfin : node ∉ fin ++ ext).
  { rewrite Hfin2, Hrec2. set_solver. }
  eexists false, _, ((fin ++ ext) ++ [node]). split_and!; [done| |].
  - split_and!; simpl.
    + split; simpl.
      * set_solver.
      * done.
      * apply NoDup_app. split_and!; [done| |apply NoDup_singleton].
        by intros x Hx ->%list_elem_of_singleton.
      * intros x. rewrite elem_of_app, list_elem_of_singleton, Hfin2.
        rewrite Hrec2. split.
        -- intros [[? ?]| ->]; [set_solver|]. split; [|set_solver].
           apply Hsv2. rewrite Hrec2. set_solver.
        -- intros [? Hx]. destruct (decide (x = node)) as [->|]; [by right|].
           left. split; [done|]. set_solver.
      * intros u w [Hu| ->%list_elem_of_singleton]%elem_of_app Huw.
        -- destruct (Hcl2 u w Hu Huw) as [?|?]; [by left|].
           right. by apply before_app_r.
        -- destruct (Hset w Huw) as [?|[_ Hw]].
           ++ right. by apply before_snoc.
           ++ left. by apply (Hw path).
    + rewrite Hrec2. set_solver.
    + set_solver.
    + by exists new.
    + exists (ext ++ [node]). by rewrite app_assoc.
  - left. apply elem_of_app; right. left.
Qed.
End cycles.

(** *** Positions in the list of returned visits *)

Lemma before_lookup x y (l : list string) :
  before x y l ↔ ∃ i j, i < j ∧ l !! i = Some x ∧ l !! j = Some y.
Proof.
  split.
  - intros (l1 & l2 & l3 & ->).
    exists (length l1), (length (l1 ++ x :: l2)). split_and!.
    + rewrite length_app. simpl. lia.
    + apply list_lookup_middle. done.
    + replace (l1 ++ x :: l2 ++ y :: l3) with ((l1 ++ x :: l2) ++ y :: l3)
        by by rewrite <-app_assoc.
      by apply list_lookup_middle.
  - intros (i & j & Hij & Hi & Hj).
    exists (take i l), (take (j - S i) (drop (S i) l)),
           (drop (S (j - S i)) (drop (S i) l)).
    rewrite <-(take_drop_middle l i x Hi) at 1. do 2 f_equal.
    symmetry. apply take_drop_middle. rewrite lookup_drop.
    by replace (S i + (j - S i)) with j by lia.
Qed.

Lemma before_trans x y z (l : list string) :
  NoDup l → before x y l → before y z l → before x z l.
Proof.
  intros Hnd (i & j & Hij & Hi & Hj)%before_lookup
         (j' & k & Hjk & Hj' & Hk)%before_lookup.
  apply before_lookup. exists i, k. split_and!; [|done..].
  assert (j = j') by by eapply NoDup_lookup. lia.
Qed.

Lemma before_irrefl x (l : list string) : NoDup l → ¬ before x x l.
Proof.
  intros Hnd (i & j & Hij & Hi & Hj)%before_lookup.
  assert (i = j) by by eapply NoDup_lookup. lia.
Qed.

Section cycle_results.
Import DependencyResolver.
Variable g : graph.

(** Along a dependency path whose nodes have all returned, either some
    edge closes a reported cycle or the end returned before the
    start. *)
Lemma chain_descends st fin :
  cycle_inv g st fin →
  (∀ k, k ∈ dict_keys g → k ∈ fin) →
  ∀ l x, chain g (x :: l) → l ≠ [] →
    (∃ p1 u w p2, x :: l = p1 ++ u :: w :: p2 ∧ closes (c_cycles st) u w)
    ∨ (∃ y, last l = Some y ∧ before y x fin).
Proof.
  intros Hinv Hkeys l. induction l as [|z l IH]; intros x Hchain Hl; [done|].
  destruct Hchain as [Hxz Hrest].
  destruct (ci_closed g st fin Hinv x z) as [Hcl|Hzx]; [|done| |].
  { by eapply Hkeys, edge_key. }
  { left. by exists [], x, z, l. }
  destruct l as [|z' l]; [right; by exists z|].
  destruct (IH z Hrest) as [(p1 & u & w & p2 & Heq & Hcl)|(y & Hy & Hyz)];
    [done| |].
  - left. exists (x :: p1), u, w, p2. by rewrite Heq.
  - right. exists y. split; [by rewrite last_cons_cons|].
    eapply before_trans; [apply Hinv|done..].
Qed.

Lemma cycle_init_inv : cycle_inv g cycle_init [].
Proof.
  split; simpl.
  - done.
  - by intros c ?%elem_of_nil.
  - apply NoDup_nil_2.
  - intros x. split; [by intros ?%elem_of_nil|]. by intros [?%elem_of_empty _].
  - by intros u w ?%elem_of_nil.
Qed.

Lemma detect_cycles_runs fuel :
  enough_fuel g ≤ fuel →
  ∃ st fin,
    detect_cycles fuel g = Done (c_cycles st)
    ∧ cycle_inv g st fin
    ∧ ∀ k, k ∈ dict_keys g → k ∈ fin.
Proof.
  intros Hfuel.
  destruct (cycle_loop_ok g fuel (cycle_visit_all_ok g fuel) (dict_keys g)
              [] cycle_init [])
    as (st & fin & Hrun & (Hinv & _) & Hset).
  - split_and!; [apply cycle_init_inv|apply NoDup_nil_2|].
    intros x. simpl. split; [by intros ?%elem_of_empty|by intros ?%elem_of_nil].
  - intros d Hd. split; [done|by apply universe_key].
  - by apply enough_fuel_universe.
  - exists st, fin. split_and!; [|done|].
    + unfold detect_cycles. by rewrite Hrun.
    + intros k Hk. destruct (Hset k Hk) as [?|[?%elem_of_nil _]]; done.
Qed.
End cycle_results.

(** *** A larger recursion budget changes no result *)

Lemma for_each_Done_impl {S A} (body body' : A → S → outcome S) l st st' :
  (∀ x s s', body x s = Done s' → body' x s = Done s') →
  for_each body l st = Done st' → for_each body' l st = Done st'.
Proof.
  intros Hbody. revert st. induction l as [|x l IH]; intros st; [done|].
  intros (st1 & Hx & Hrest)%for_each_cons_Done.
  apply for_each_cons_Done. exists st1. eauto.
Qed.

Section fuel.
Import DependencyResolver.
Variable g : graph.

Lemma order_visit_fuel_S fuel node st st' :
  order_visit fuel g node st = Done st' →
  order_visit (S fuel) g node st = Done st'.
Proof.
  revert node st st'. induction fuel as [|fuel IH]; intros node st st'; [done|].
  intros H. simpl in H. change (order_visit (S (S fuel)) g node st) with
    (if decide (node ∈ o_visited st) then Done st
     else
       st2 ← for_each (order_visit (S fuel) g) (deps g node)
               (OrderState ({[node]} ∪ o_visited st) (o_result st));
       Done (OrderState (o_visited st2) (o_result st2 ++ [node]))).
  destruct (decide (node ∈ o_visited st)); [done|].
  apply bind_Done in H as (st2 & Hloop & Hret). apply bind_Done.
  exists st2. split; [|done]. by eapply for_each_Done_impl.
Qed.

Lemma order_visit_fuel_le fuel fuel' node st st' :
  fuel ≤ fuel' →
  order_visit fuel g node st = Done st' →
  order_visit fuel' g node st = Done st'.
Proof. induction 1; [done|]. intros ?. by apply order_visit_fuel_S, IHle. Qed.

Lemma get_build_order_fuel_le fuel fuel' order :
  fuel ≤ fuel' →
  get_build_order fuel g = Done order → get_build_order fuel' g = Done order.
Proof.
  intros Hle (st & Hloop & Hret)%bind_Done. apply bind_Done.
  exists st. split; [|done]. eapply for_each_Done_impl; [|done].
  intros ???. by apply order_visit_fuel_le.
Qed.

Lemma cycle_visit_fuel_S fuel node path st r :
  cycle_visit fuel g node path st = Done r →
  cycle_visit (S fuel) g node path st = Done r.
Proof.
  revert node path st r.
  induction fuel as [|fuel IH]; intros node path st r; [done|].
  intros H. simpl in H. change (cycle_visit (S (S fuel)) g node path st) with
    (if decide (node ∈ c_rec_stack st) then
       match list_index node path with
       | Some cycle_start =>
           Done (true,
                 CycleState (c_cycles st ++ [drop cycle_start path ++ [node]])
                            (c_visited st) (c_rec_stack st))
       | None => Raised ValueError
       end
     else if decide (node ∈ c_visited st) then Done (false, st)
     else
       st2 ← for_each
               (λ dep s, r ← cycle_visit (S fuel) g dep (path ++ [node]) s;
                         Done r.2)
               (deps g node)
               (CycleState (c_cycles st) ({[node]} ∪ c_visited st)
                           ({[node]} ∪ c_rec_stack st));
       if decide (node ∈ c_rec_stack st2) then
         Done (false,
               CycleState (c_cycles st2) (c_visited st2)
                          (c_rec_stack st2 ∖ {[node]}))
       else Raised KeyError).
  destruct (decide (node ∈ c_rec_stack st)); [done|].
  destruct (decide (node ∈ c_visited st)); [done|].
  apply bind_Done in H as (st2 & Hloop & Hret). apply bind_Done.
  exists st2. split; [|done]. eapply for_each_Done_impl; [|done].
  intros dep s s' (r' & Hr' & Hs')%bind_Done. apply bind_Done.
  exists r'. split; [|done]. by apply IH.
Qed.

Lemma cycle_visit_fuel_le fuel fuel' node path st r :
  fuel ≤ fuel' →
  cycle_visit fuel g node path st = Done r →
  cycle_visit fuel' g node path st = Done r.
Proof. induction 1; [done|]. intros ?. by apply cycle_visit_fuel_S, IHle. Qed.

Lemma detect_cycles_fuel_le fuel fuel' cycles :
  fuel ≤ fuel' →
  detect_cycles fuel g = Done cycles → detect_cycles fuel' g = Done cycles.
Proof.
  intros Hle (st & Hloop & Hret)%bind_Done. apply bind_Done.
  exists st. split; [|done]. eapply for_each_Done_impl; [|done].
  intros node s s' (r & Hr & Hs')%bind_Done. apply bind_Done.
  exists r. split; [|done]. by eapply cycle_visit_fuel_le.
Qed.
End fuel.

(** ** The resolver: results *)

Example abc_cycle_items :
  abc_cycle = [("A", ["B"]); ("B", ["C"]); ("C", ["A"])].
Proof. reflexivity. Qed.

Example two_cycles_reported :
  DependencyResolver.detect_cycles
    (enough_fuel two_cycles) two_cycles
  = Done [["A"; "B"; "A"]].
Proof. vm_compute. reflexivity. Qed.

(** C5. For the graph A: [B], B: [C], C: [A] the reported list is not
    empty and holds a cycle through A, B and C, and the build order is
    returned and is a permutation of A, B, C. *)
Theorem abc_cycle_reported (fuel : nat) :
  enough_fuel abc_cycle ≤ fuel →
  ∃ cycles order,
    DependencyResolver.detect_cycles fuel abc_cycle = Done cycles
    ∧ cycles ≠ []
    ∧ (∃ c, c ∈ cycles ∧ "A" ∈ c ∧ "B" ∈ c ∧ "C" ∈ c)
    ∧ DependencyResolver.get_build_order fuel abc_cycle = Done order
    ∧ order ≡ₚ ["A"; "B"; "C"].
Proof.
  intros Hfuel. exists [["A"; "B"; "C"; "A"]], ["C"; "B"; "A"]. split_and!.
  - eapply detect_cycles_fuel_le; [done|]. vm_compute. reflexivity.
  - done.
  - exists ["A"; "B"; "C"; "A"]. split_and!.
    + left.
    + left.
    + right. left.
    + right. right. left.
  - eapply get_build_order_fuel_le; [done|]. vm_compute. reflexivity.
  - exact (reverse_Permutation ["A"; "B"; "C"]).
Qed.

Lemma abc_cycle_reported_witness :
  ∃ cycles order,
    DependencyResolver.detect_cycles 7 abc_cycle = Done cycles
    ∧ cycles ≠ []
    ∧ (∃ c, c ∈ cycles ∧ "A" ∈ c ∧ "B" ∈ c ∧ "C" ∈ c)
    ∧ DependencyResolver.get_build_order 7 abc_cycle = Done order
    ∧ order ≡ₚ ["A"; "B"; "C"].
Proof. apply (abc_cycle_reported 7). vm_compute. lia. Defined.

(** C6, as stated, fails: in [two_cycles] the traversal reports A, B, A
    and nothing else, so the cycle A, C, B, A is not among the reported
    ones; no reported cycle even passes through C. *)
Lemma detect_cycles_misses_a_cycle :
  ¬ reports_every_cycle (enough_fuel two_cycles) two_cycles.
Proof.
  intros (cycles & Hrun & Hall). rewrite two_cycles_reported in Hrun.
  injection Hrun as <-.
  destruct (Hall ["A"; "C"; "B"; "A"]) as (c & Hc & Hnodes).
  - exists "A", ["C"; "B"]. split_and!; [done| |].
    + unfold chain, edge. vm_compute DependencyResolver.deps.
      split_and!; [set_solver..|done].
    + repeat (apply NoDup_cons; split; [set_solver|]). apply NoDup_nil_2.
  - apply list_elem_of_singleton in Hc as ->.
    specialize (Hnodes "C"). set_solver.
Qed.

(** C6, amended.  The traversal goes on after a cycle is found.  Every
    reported cycle is the dependency path from a node on the recursion
    stack back to that node, and every cycle of the graph has an edge
    that closes a reported cycle. *)
Theorem detect_cycles_closes_every_cycle
    (g : DependencyResolver.graph) (fuel : nat) :
  enough_fuel g ≤ fuel →
  ∃ cycles,
    DependencyResolver.detect_cycles fuel g = Done cycles
    ∧ (∀ c, c ∈ cycles →
         ∃ n mid, c = n :: mid ++ [n] ∧ chain g c ∧ NoDup (n :: mid))
    ∧ (∀ p, cycle_path g p →
         ∃ p1 u w p2, p = p1 ++ u :: w :: p2 ∧ closes cycles u w).
Proof.
  intros Hfuel.
  destruct (detect_cycles_runs g fuel Hfuel) as (st & fin & Hrun & Hinv & Hkeys).
  exists (DependencyResolver.c_cycles st). split_and!; [done| |].
  - intros c Hc. by apply (ci_genuine g st fin Hinv).
  - intros p (n & mid & -> & Hchain & _).
    destruct (chain_descends g st fin Hinv Hkeys (mid ++ [n]) n Hchain)
      as [?|(y & Hy & Hbefore)]; [by destruct mid|done|].
    rewrite last_snoc in Hy. injection Hy as <-.
    destruct (before_irrefl n fin); [apply Hinv|done].
Qed.

Lemma detect_cycles_closes_every_cycle_witness :
  ∃ cycles,
    DependencyResolver.detect_cycles 8 two_cycles = Done cycles
    ∧ (∀ c, c ∈ cycles →
         ∃ n mid, c = n :: mid ++ [n] ∧ chain two_cycles c ∧ NoDup (n :: mid))
    ∧ (∀ p, cycle_path two_cycles p →
         ∃ p1 u w p2, p = p1 ++ u :: w :: p2 ∧ closes cycles u w).
Proof. apply (detect_cycles_closes_every_cycle two_cycles 8). vm_compute. lia. Defined.

(** C7. On every graph, cyclic or not, both traversals return: with a
    recursion budget of at least [enough_fuel g] neither runs out of it
    and neither raises. *)
Theorem resolver_terminates (g : DependencyResolver.graph) (fuel : nat) :
  enough_fuel g ≤ fuel →
  (∃ order, DependencyResolver.get_build_order fuel g = Done order)
  ∧ (∃ cycles, DependencyResolver.detect_cycles fuel g = Done cycles).
Proof.
  intros Hfuel. split.
  - destruct (get_build_order_runs g fuel Hfuel) as (st & _ & ?). eauto.
  - destruct (detect_cycles_runs g fuel Hfuel) as (st & fin & ? & _). eauto.
Qed.

Lemma resolver_terminates_witness :
  (∃ order, DependencyResolver.get_build_order 7 abc_cycle = Done order)
  ∧ (∃ cycles, DependencyResolver.detect_cycles 7 abc_cycle = Done cycles).
Proof. apply (resolver_terminates abc_cycle 7). vm_compute. lia. Defined.

(** C10. Every reported cycle is a dependency path of the graph from a
    node back to itself, so an acyclic graph yields the empty list. *)
Theorem detect_cycles_sound (g : DependencyResolver.graph) (fuel : nat) :
  enough_fuel g ≤ fuel →
  ∃ cycles,
    DependencyResolver.detect_cycles fuel g = Done cycles
    ∧ (∀ c, c ∈ cycles → cycle_path g c)
    ∧ (acyclic g → cycles = []).
Proof.
  intros Hfuel.
  destruct (detect_cycles_runs g fuel Hfuel) as (st & fin & Hrun & Hinv & _).
  exists (DependencyResolver.c_cycles st).
  assert (Hgen : ∀ c, c ∈ DependencyResolver.c_cycles st → cycle_path g c)
    by apply Hinv.
  split_and!; [done..|]. intros Hacyclic.
  destruct (DependencyResolver.c_cycles st) as [|c cs]; [done|].
  destruct (cycle_path_tc g c) as (n & _ & Hn); [apply Hgen; left|].
  by destruct (Hacyclic n).
Qed.

Lemma detect_cycles_sound_witness :
  ∃ cycles,
    DependencyResolver.detect_cycles 7 abc_cycle = Done cycles
    ∧ (∀ c, c ∈ cycles → cycle_path abc_cycle c)
    ∧ (acyclic abc_cycle → cycles = []).
Proof. apply (detect_cycles_sound abc_cycle 7). vm_compute. lia. Defined.



Section cache.
Import SmartCache.



Lemma load_save index dir : _load_index (_save_index index dir) = index.
Proof. done. Qed.










Lemma to_invalidate_elem dependency (index : dict entry) k :
  k ∈ (filter (λ item, dependency ∈ dependencies item.2) index).*1
  ↔ ∃ item, (k, item) ∈ index ∧ dependency ∈ dependencies item.
Proof.
  rewrite list_elem_of_fmap. split.
  - intros ([k' item] & -> & [Hdep Hin]%list_elem_of_filter). by exists item.
  - intros (item & Hin & Hdep). exists (k, item). split; [done|].
    by apply list_elem_of_filter.
Qed.
End cache.

(** ** The cache: results *)







(** ** File signatures *)

Section fingerprint.
Import IntelligentAnalyzer.
Variable sha256_hexdigest : list byte → string.

Lemma hash_file_signature path f sigs :
  hash_file sha256_hexdigest path f sigs
  = match signature_of sha256_hexdigest f with
    | Some d => <[path := d]> sigs
    | None => sigs
    end.
Proof.
  unfold hash_file, signature_of. destruct (st_size f); [|done].
  case_bool_decide; [|done]. by destruct (read_bytes f).
Qed.

Lemma foldl_bind {A B C} (f : A → B → A) (h : C → list B) l a :
  foldl f a (l ≫= h) = foldl (λ a x, foldl f a (h x)) a l.
Proof.
  revert a. induction l as [|x l IH]; intros a; [done|].
  rewrite bind_cons, foldl_app. apply IH.
Qed.

Lemma walk_fold n :
  ∀ root sigs,
    walk sha256_hexdigest root n sigs
    = foldl (λ s pf, hash_file sha256_hexdigest pf.1 pf.2 s) sigs
        (walk_files root n).
Proof.
  induction n as [f|entries IH] using node_ind'; intros root sigs; [done|].
  simpl. rewrite foldl_app, !foldl_bind. 
  assert (Hfiles : ∀ s,
    foldl (λ sigs0 e,
             match e.2 with
             | FileNode f => hash_file sha256_hexdigest (rel_path (root ++ [e.1])) f sigs0
             | DirNode _ => sigs0
             end) s entries
    = foldl (λ a x,
               foldl (λ s0 pf, hash_file sha256_hexdigest pf.1 pf.2 s0) a
                 match x.2 with
                 | FileNode f => [(rel_path (root ++ [x.1]), f)]
                 | DirNode _ => []
                 end) s entries).
  { clear IH. induction entries as [|[name [f|children]] entries IHe];
      intros s; simpl; [done|..]; apply IHe. }
  rewrite Hfiles. generalize (foldl
    (λ a x,
       foldl (λ s0 pf, hash_file sha256_hexdigest pf.1 pf.2 s0) a
         match x.2 with
         | FileNode f => [(rel_path (root ++ [x.1]), f)]
         | DirNode _ => []
         end) sigs entries). clear Hfiles.
  induction IH as [|[name child] entries Hchild _ IHe]; intros s; [done|].
  simpl. rewrite <-IHe. f_equal. destruct child as [f|children]; [done|].
  destruct (pruned name); [done|]. apply Hchild.
Qed.

(** *** Paths *)

Lemma has_slash_append a r : has_slash (a +:+ "/" +:+ r) = true.
Proof. induction a as [|c a IH]; simpl; [done|]. by destruct (Ascii.eqb c "/"). Qed.

Lemma slash_split a b r1 r2 :
  has_slash a = false → has_slash b = false →
  a +:+ "/" +:+ r1 = b +:+ "/" +:+ r2 → a = b ∧ r1 = r2.
Proof.
  revert b. induction a as [|c a IH]; intros [|c' b] Ha Hb H;
    simpl in Ha, Hb, H.
  - by simplify_eq/=.
  - by simplify_eq/=.
  - by simplify_eq/=.
  - injection H as -> H. destruct (Ascii.eqb c' "/"); [done|].
    destruct (IH b Ha Hb H) as [-> ->]. done.
Qed.

Lemma rel_path_inj l1 l2 :
  l1 ≠ [] → l2 ≠ [] →
  Forall (λ s, has_slash s = false) l1 →
  Forall (λ s, has_slash s = false) l2 →
  rel_path l1 = rel_path l2 → l1 = l2.
Proof.
  unfold rel_path. revert l2.
  induction l1 as [|a l1 IH]; intros [|b l2] Hl1 Hl2 Ha Hb; try done.
  apply Forall_cons in Ha as [Ha Hl1']. apply Forall_cons in Hb as [Hb Hl2'].
  destruct l1 as [|a2 l1], l2 as [|b2 l2].
  - simpl. by intros ->.
  - simpl. intros ->. by rewrite has_slash_append in Ha.
  - simpl. intros <-. by rewrite has_slash_append in Hb.
  - change (String.concat "/" (a :: a2 :: l1))
      with (a +:+ "/" +:+ String.concat "/" (a2 :: l1)).
    change (String.concat "/" (b :: b2 :: l2))
      with (b +:+ "/" +:+ String.concat "/" (b2 :: l2)).
    intros [-> Hrest]%slash_split; [|done..]. f_equal. by apply IH.
Qed.

(** *** Well-formed trees *)

Lemma wf_dir entries :
  wf (DirNode entries) = true
  ↔ NoDup entries.*1
    ∧ ∀ name child, (name, child) ∈ entries →
                    has_slash name = false ∧ wf child = true.
Proof.
  simpl. rewrite andb_true_iff, bool_decide_eq_true, forallb_forall.
  split; intros [Hnd Hall]; (split; [done|]).
  - intros name child Hin%list_elem_of_In. apply Hall in Hin. simpl in Hin.
    apply andb_true_iff in Hin as [?%negb_true_iff ?]. done.
  - intros [name child] Hin%list_elem_of_In. simpl.
    destruct (Hall name child Hin) as [-> ->]. done.
Qed.

Lemma entries_functional (entries : list (string * node)) name c1 c2 :
  NoDup entries.*1 → (name, c1) ∈ entries → (name, c2) ∈ entries → c1 = c2.
Proof.
  intros Hnd H1 H2.
  apply (dict_get_elem entries name c1 Hnd) in H1.
  apply (dict_get_elem entries name c2 Hnd) in H2. congruence.
Qed.

Lemma walked_valid entries parts f :
  wf (DirNode entries) = true → walked entries parts f →
  parts ≠ [] ∧ Forall (λ s, has_slash s = false) parts.
Proof.
  intros Hwf Hw. induction Hw as [entries name f Hin|entries name children parts f Hin Hkeep Hw IH].
  - apply wf_dir in Hwf as [_ Hall]. destruct (Hall _ _ Hin) as [? _].
    split; [done|]. by apply Forall_singleton.
  - apply wf_dir in Hwf as [_ Hall]. destruct (Hall _ _ Hin) as [? Hc].
    split; [done|]. apply Forall_cons. split; [done|]. by apply IH.
Qed.

Lemma walked_functional entries parts f f' :
  wf (DirNode entries) = true →
  walked entries parts f → walked entries parts f' → f = f'.
Proof.
  intros Hwf Hw. revert f'.
  induction Hw as [entries name f Hin|entries name children parts f Hin Hkeep Hw IH];
    intros f' Hw'; apply wf_dir in Hwf as [Hnd Hall].
  - inversion Hw' as [? ? ? Hin'|? ? ? ? ? _ _ Hbelow]; subst.
    + assert (FileNode f = FileNode f') as [= ->] by by eapply entries_functional.
      done.
    + inversion Hbelow.
  - inversion Hw' as [|? ? children' ? ? Hin' _ Hbelow]; subst.
    + inversion Hw.
    + assert (DirNode children = DirNode children') as [= <-]
        by by eapply entries_functional.
      apply IH; [|done]. by apply (Hall name).
Qed.

(** *** The files the loops meet *)

Lemma walk_files_walked entries root parts f :
  walked entries parts f →
  (rel_path (root ++ parts), f) ∈ walk_files root (DirNode entries).
Proof.
  intros Hw. revert root.
  induction Hw as [entries name f Hin|entries name children parts f Hin Hkeep Hw IH];
    intros root; simpl; apply elem_of_app.
  - left. apply list_elem_of_bind. exists (name, FileNode f).
    split; [left|done].
  - right. apply list_elem_of_bind. exists (name, DirNode children).
    split; [|done]. simpl. rewrite Hkeep.
    specialize (IH (root ++ [name])). by rewrite <-app_assoc in IH.
Qed.

Lemma walked_walk_files n :
  ∀ root k f,
    (k, f) ∈ walk_files root n →
    ∃ entries parts,
      n = DirNode entries ∧ k = rel_path (root ++ parts)
      ∧ walked entries parts f.
Proof.
  induction n as [f0|entries IH] using node_ind'; intros root k f;
    [by intros ?%elem_of_nil|].
  simpl. intros [Hin|Hin]%elem_of_app;
    apply list_elem_of_bind in Hin as ([name child] & Hk & He); simpl in Hk.
  - destruct child as [f1|children]; [|by apply elem_of_nil in Hk].
    apply list_elem_of_singleton in Hk as [= -> ->].
    exists entries, [name]. split_and!; [done..|]. by constructor.
  - destruct child as [f1|children]; [by apply elem_of_nil in Hk|].
    destruct (pruned name) eqn:Hkeep; [by apply elem_of_nil in Hk|].
    rewrite Forall_forall in IH.
    destruct (IH _ He _ _ _ Hk) as (children' & parts & [= <-] & -> & Hw).
    exists entries, (name :: parts). split_and!; [done| |].
    + by rewrite <-app_assoc.
    + by econstructor.
Qed.

(** *** The signature map *)

Lemma fold_signatures_other (l : list (string * file)) sigs k :
  k ∉ l.*1 →
  foldl (λ s pf, hash_file sha256_hexdigest pf.1 pf.2 s) sigs l !! k
  = sigs !! k.
Proof.
  revert sigs. induction l as [|[k0 f0] l IH]; intros sigs Hk; [done|].
  csimpl in Hk. apply not_elem_of_cons in Hk as [Hne Hk]. simpl.
  rewrite IH by done. rewrite hash_file_signature.
  destruct (signature_of sha256_hexdigest f0); [|done]. by apply lookup_insert_ne.
Qed.

Lemma fold_signatures_elem (l : list (string * file)) sigs k f :
  (∀ f1 f2, (k, f1) ∈ l → (k, f2) ∈ l → f1 = f2) →
  (k, f) ∈ l →
  foldl (λ s pf, hash_file sha256_hexdigest pf.1 pf.2 s) sigs l !! k
  = match signature_of sha256_hexdigest f with
    | Some d => Some d
    | None => sigs !! k
    end.
Proof.
  revert sigs. induction l as [|[k0 f0] l IH]; intros sigs Hfun Hin;
    [by apply elem_of_nil in Hin|].
  simpl. destruct (decide (k ∈ l.*1)) as [Hk|Hk].
  - apply list_elem_of_fmap in Hk as ([k' f'] & -> & Hf'). simpl in *.
    assert (f' = f) as -> by (apply Hfun; [by right|done]).
    rewrite IH; [|by intros f1 f2 ??; apply Hfun; right|done].
    destruct (signature_of sha256_hexdigest f) eqn:Hsig; [done|].
    rewrite hash_file_signature. destruct (decide (k0 = k')) as [->|Hne].
    + assert (f0 = f) as -> by (apply Hfun; [left|by right]).
      by rewrite Hsig.
    + destruct (signature_of sha256_hexdigest f0); [|done]. by apply lookup_insert_ne.
  - apply elem_of_cons in Hin as [[= -> ->]|Hin].
    + rewrite fold_signatures_other by done. rewrite hash_file_signature.
      destruct (signature_of sha256_hexdigest f0); [|done]. by apply lookup_insert_eq.
    + destruct Hk. apply list_elem_of_fmap. by exists (k, f).
Qed.

Lemma signatures_lookup entries k d :
  wf (DirNode entries) = true →
  _compute_file_signatures sha256_hexdigest (DirNode entries) !! k = Some d
  ↔ ∃ parts f,
      k = rel_path parts ∧ walked entries parts f
      ∧ signature_of sha256_hexdigest f = Some d.
Proof.
  intros Hwf. unfold _compute_file_signatures. rewrite walk_fold.
  remember (walk_files [] (DirNode entries)) as l eqn:Hl.
  assert (Hfun : ∀ f1 f2, (k, f1) ∈ l → (k, f2) ∈ l → f1 = f2).
  { subst l. intros f1 f2 (es1 & p1 & [= <-] & Hk1 & Hw1)%walked_walk_files
                 (es2 & p2 & [= <-] & Hk2 & Hw2)%walked_walk_files.
    simpl in Hk1, Hk2.
    destruct (walked_valid _ _ _ Hwf Hw1) as [? ?].
    destruct (walked_valid _ _ _ Hwf Hw2) as [? ?].
    assert (p1 = p2) as -> by (apply rel_path_inj; [done..|congruence]).
    by eapply walked_functional. }
  split.
  - intros Hd. destruct (decide (k ∈ l.*1)) as [Hk|Hk].
    + apply list_elem_of_fmap in Hk as ([k' f] & -> & Hf).
      change ((k', f).1) with k' in *.
      rewrite (fold_signatures_elem l ∅ k' f Hfun Hf) in Hd. subst l.
      destruct (walked_walk_files _ _ _ _ Hf)
        as (es & parts & [= <-] & -> & Hw).
      exists parts, f. split_and!; [done..|].
      destruct (signature_of sha256_hexdigest f); [done|]. by rewrite lookup_empty in Hd.
    + rewrite fold_signatures_other in Hd by done.
      by rewrite lookup_empty in Hd.
  - intros (parts & f & -> & Hw & Hsig).
    rewrite (fold_signatures_elem l ∅ (rel_path parts) f Hfun).
    + by rewrite Hsig.
    + subst l. by apply (walk_files_walked entries []).
Qed.

Lemma signatures_file entries parts f :
  wf (DirNode entries) = true → walked entries parts f →
  _compute_file_signatures sha256_hexdigest (DirNode entries)
    !! rel_path parts
  = signature_of sha256_hexdigest f.
Proof.
  intros Hwf Hw. apply option_eq. intros d.
  rewrite signatures_lookup by done. split.
  - intros (parts' & f' & Hk & Hw' & Hsig).
    destruct (walked_valid _ _ _ Hwf Hw) as [? ?].
    destruct (walked_valid _ _ _ Hwf Hw') as [? ?].
    assert (parts = parts') as <- by by apply rel_path_inj.
    by rewrite (walked_functional _ _ _ _ Hwf Hw Hw').
  - intros Hsig. by exists parts, f.
Qed.

Lemma walked_tree_file entries parts f :
  walked entries parts f ↔ tree_file entries parts f ∧ kept parts.
Proof.
  split.
  - induction 1 as [entries name f Hin|entries name children parts f Hin Hkeep Hw [IH1 IH2]].
    + split; [by constructor|done].
    + split; [by econstructor|]. destruct Hw; by split.
  - intros [Ht Hk]. induction Ht as [entries name f Hin|entries name children parts f Hin Ht IH].
    + by constructor.
    + destruct Ht; simpl in Hk; destruct Hk as [? ?]; econstructor; eauto.
Qed.
End fingerprint.

(** ** File signatures: results *)

Lemma substring_length_le (m : nat) (s : string) :
  String.length (String.substring 0 m s) ≤ m.
Proof.
  revert s. induction m as [|m IH]; intros [|c s]; simpl; try lia.
  specialize (IH s). lia.
Qed.

Lemma same_files_refl t : same_files t t.
Proof. by intros parts f. Qed.

Lemma same_files_trans t1 t2 t3 :
  same_files t1 t2 → same_files t2 t3 → same_files t1 t3.
Proof. intros H12 H23 parts f. etrans; [apply H12|apply H23]. Qed.

(** Listing a directory in another order changes no path. *)
Lemma same_files_Permutation t1 t2 : t1 ≡ₚ t2 → same_files t1 t2.
Proof.
  assert (∀ t1 t2 parts f,
            t1 ≡ₚ t2 → tree_file t1 parts f → tree_file t2 parts f) as Himpl.
  { intros ? ? parts f Hperm Ht. destruct Ht as [t name f Hin|t name children parts f Hin Ht].
    - apply tree_file_here. by rewrite <-Hperm.
    - eapply tree_file_below; [|done]. by rewrite <-Hperm. }
  intros Hperm parts f. split; by apply Himpl.
Qed.

(** Nor does listing one of its directories in another order. *)
Lemma same_files_child name c1 c2 t :
  same_files c1 c2 →
  same_files ((name, IntelligentAnalyzer.DirNode c1) :: t)
             ((name, IntelligentAnalyzer.DirNode c2) :: t).
Proof.
  assert (∀ c1 c2 parts f,
            same_files c1 c2 →
            tree_file ((name, IntelligentAnalyzer.DirNode c1) :: t) parts f →
            tree_file ((name, IntelligentAnalyzer.DirNode c2) :: t) parts f)
    as Himpl.
  { intros ? ? parts f Hsame Ht.
    inversion Ht as [? name' ? Hin|? name' children parts' ? Hin Hbelow]; subst.
    - apply tree_file_here. apply elem_of_cons in Hin as [[=]|Hin]. by right.
    - apply elem_of_cons in Hin as [[= -> ->]|Hin].
      + eapply tree_file_below; [left|]. by apply Hsame.
      + eapply tree_file_below; [by right|done]. }
  intros Hsame parts f. split; apply Himpl; [done|].
  intros ??. symmetry. apply Hsame.
Qed.

Lemma project_same_files : same_files project project_reordered.
Proof.
  eapply same_files_trans; [|eapply same_files_trans].
  - apply same_files_Permutation.
    exact (Permutation_cons_append
             [("src", IntelligentAnalyzer.DirNode src_dir);
              (".git", IntelligentAnalyzer.DirNode
                         [("HEAD", IntelligentAnalyzer.FileNode small_file)])]
             ("data.bin", IntelligentAnalyzer.FileNode big_file)).
  - apply (same_files_child "src" src_dir (reverse src_dir)).
    apply same_files_Permutation. by rewrite reverse_Permutation.
  - apply same_files_Permutation. apply Permutation_swap.
Qed.

Section signature_results.
Import IntelligentAnalyzer.
Variable sha256_hexdigest : list byte → string.

Lemma signature_of_Some f d :
  signature_of sha256_hexdigest f = Some d
  ↔ ∃ size content,
      st_size f = Some size ∧ (size < 10000000)%Z
      ∧ read_bytes f = Some content
      ∧ d = String.substring 0 16 (sha256_hexdigest content).
Proof.
  unfold signature_of. split.
  - destruct (st_size f) as [size|]; [|done].
    case_bool_decide; [|done].
    destruct (read_bytes f) as [content|]; [|done].
    intros [= <-]. by exists size, content.
  - intros (size & content & -> & Hsize & -> & ->).
    by rewrite bool_decide_eq_true_2.
Qed.
End signature_results.

(** C3. Two trees that hold the same files at the same paths get the
    same signatures, in whatever order their directories are listed. *)
Theorem signatures_order_independent
    (sha256_hexdigest : list byte → string)
    (t1 t2 : list (string * IntelligentAnalyzer.node)) :
  wf (IntelligentAnalyzer.DirNode t1) = true →
  wf (IntelligentAnalyzer.DirNode t2) = true →
  same_files t1 t2 →
  IntelligentAnalyzer._compute_file_signatures sha256_hexdigest
    (IntelligentAnalyzer.DirNode t1)
  = IntelligentAnalyzer._compute_file_signatures sha256_hexdigest
      (IntelligentAnalyzer.DirNode t2).
Proof.
  intros Hwf1 Hwf2 Hsame. apply map_eq. intros k. apply option_eq. intros d.
  rewrite !signatures_lookup by done.
  split; intros (parts & f & -> & [Ht Hk]%walked_tree_file & Hsig);
    exists parts, f; (split_and!; [done| |done]);
    apply walked_tree_file; (split; [|done]); by apply Hsame.
Qed.

Example project_signatures :
  IntelligentAnalyzer._compute_file_signatures constant_digest
    (IntelligentAnalyzer.DirNode project)
  = {["src/main.py" := "e3b0c44298fc1c14"]}.
Proof. vm_compute. reflexivity. Qed.

Lemma signatures_order_independent_witness :
  IntelligentAnalyzer._compute_file_signatures constant_digest
    (IntelligentAnalyzer.DirNode project)
  = IntelligentAnalyzer._compute_file_signatures constant_digest
      (IntelligentAnalyzer.DirNode project_reordered).
Proof.
  apply signatures_order_independent.
  - vm_compute. reflexivity.
  - vm_compute. reflexivity.
  - apply project_same_files.
Defined.

(** C9. The computation returns a map whatever the files are.  A file
    the walk reaches gets no entry when [stat] or the read fails or its
    size is ten million bytes or more, and otherwise it is mapped to the
    first sixteen characters of the digest of its bytes; every entry of
    the map is such a prefix for a file of the tree. *)
Theorem signatures_skip_bad_files
    (sha256_hexdigest : list byte → string)
    (entries : list (string * IntelligentAnalyzer.node)) :
  wf (IntelligentAnalyzer.DirNode entries) = true →
  let signatures :=
    IntelligentAnalyzer._compute_file_signatures sha256_hexdigest
      (IntelligentAnalyzer.DirNode entries) in
  (∀ parts f,
     walked entries parts f →
     IntelligentAnalyzer.st_size f = None
     ∨ IntelligentAnalyzer.read_bytes f = None
     ∨ (∃ size, IntelligentAnalyzer.st_size f = Some size
                ∧ (10000000 ≤ size)%Z) →
     signatures !! IntelligentAnalyzer.rel_path parts = None)
  ∧ (∀ parts f size content,
       walked entries parts f →
       IntelligentAnalyzer.st_size f = Some size → (size < 10000000)%Z →
       IntelligentAnalyzer.read_bytes f = Some content →
       signatures !! IntelligentAnalyzer.rel_path parts
       = Some (String.substring 0 16 (sha256_hexdigest content)))
  ∧ (∀ k d,
       signatures !! k = Some d →
       String.length d ≤ 16
       ∧ ∃ parts f content,
           k = IntelligentAnalyzer.rel_path parts
           ∧ walked entries parts f
           ∧ IntelligentAnalyzer.read_bytes f = Some content
           ∧ d = String.substring 0 16 (sha256_hexdigest content)).
Proof.
  intros Hwf signatures. split_and!.
  - intros parts f Hw Hbad. unfold signatures.
    rewrite (signatures_file sha256_hexdigest entries parts f Hwf Hw).
    unfold signature_of. destruct Hbad as [->|[Hread|(size & -> & Hsize)]].
    + done.
    + destruct (IntelligentAnalyzer.st_size f); [|done].
      case_bool_decide; [|done]. by rewrite Hread.
    + by rewrite bool_decide_eq_false_2 by lia.
  - intros parts f size content Hw Hstat Hsize Hread. unfold signatures.
    rewrite (signatures_file sha256_hexdigest entries parts f Hwf Hw).
    apply signature_of_Some. by exists size, content.
  - intros k d Hd. unfold signatures in Hd.
    apply signatures_lookup in Hd as (parts & f & -> & Hw & Hsig); [|done].
    apply signature_of_Some in Hsig as (size & content & _ & _ & Hread & ->).
    split; [apply substring_length_le|]. by exists parts, f, content.
Qed.

Lemma signatures_skip_bad_files_witness :
  IntelligentAnalyzer._compute_file_signatures constant_digest
    (IntelligentAnalyzer.DirNode project) !! "data.bin" = None
  ∧ IntelligentAnalyzer._compute_file_signatures constant_digest
      (IntelligentAnalyzer.DirNode project) !! "src/secret.key" = None
  ∧ IntelligentAnalyzer._compute_file_signatures constant_digest
      (IntelligentAnalyzer.DirNode project) !! "src/main.py"
    = Some "e3b0c44298fc1c14".
Proof.
  destruct (signatures_skip_bad_files constant_digest project)
    as (Hbad & Hgood & _); [vm_compute; reflexivity|].
  split_and!.
  - apply (Hbad ["data.bin"] big_file).
    + apply walked_here. left.
    + right. right. exists 10000000%Z. split; [reflexivity|lia].
  - apply (Hbad ["src"; "secret.key"] locked_file).
    + apply (walked_below _ "src" src_dir); [right; left|reflexivity|].
      apply walked_here. right. left.
    + right. left. reflexivity.
  - apply (Hgood ["src"; "main.py"] small_file 3%Z [x61; x62; x63]).
    + apply (walked_below _ "src" src_dir); [right; left|reflexivity|].
      apply walked_here. left.
    + reflexivity.
    + lia.
    + reflexivity.
Defined.

(** ** Build orders of arbitrary graphs *)

Section order_any.
Import DependencyResolver.
Variable g : graph.

Lemma order_any_post_trans st1 st2 st3 :
  order_any_post g st1 st2 → order_any_post g st2 st3 →
  order_any_post g st1 st3.
Proof.
  intros (_ & [e1 He1] & Ho1 & Hv1) (Hi & [e2 He2] & Ho2 & Hv2).
  split_and!; [done| | |by etrans].
  - exists (e1 ++ e2). by rewrite He2, He1, app_assoc.
  - intros x. by rewrite Ho2.
Qed.

Lemma order_any_loop_ok fuel :
  order_any_visit_ok g fuel →
  ∀ ds st st',
    order_any_inv g st →
    (∀ d, d ∈ ds → is_node g d) →
    (∀ d x, d ∈ ds → o_open st x → tc (edge g) x d) →
    for_each (order_visit fuel g) ds st = Done st' →
    order_any_post g st st' ∧ ∀ d, d ∈ ds → d ∈ o_visited st'.
Proof.
  intros Hvisit ds. induction ds as [|d ds IH]; intros st st' Hinv Hu Hopen.
  - intros [= <-]. split; [|by intros ? ?%elem_of_nil].
    split_and!; [done|exists []; by rewrite app_nil_r|done|done].
  - intros (st1 & Hd & Hrest)%for_each_cons_Done.
    destruct (Hvisit d st st1) as [Hpost1 Hd1]; [done|apply Hu; left| |done|].
    { intros x Hx. apply (Hopen d); [left|done]. }
    destruct (IH st1 st') as [Hpost2 Hds]; [apply Hpost1| | |done|].
    { intros d' ?. apply Hu. by right. }
    { intros d' x Hd' Hx. apply (Hopen d'); [by right|]. by apply Hpost1. }
    split; [by eapply order_any_post_trans|].
    intros d' [->|Hd']%elem_of_cons; [|by auto].
    destruct Hpost2 as (_ & _ & _ & Hsub). by apply Hsub.
Qed.

Lemma order_any_visit_all_ok fuel : order_any_visit_ok g fuel.
Proof.
  induction fuel as [|fuel IH]; intros node st st' Hinv Hnode Hopen; simpl;
    [done|].
  destruct (decide (node ∈ o_visited st)) as [Hin|Hnin].
  - intros [= <-]. split; [|done].
    split_and!; [done|exists []; by rewrite app_nil_r|done|done].
  - intros (st2 & Hloop & [= <-])%bind_Done.
    set (st1 := OrderState ({[node]} ∪ o_visited st) (o_result st)) in *.
    assert (Hres : node ∉ o_result st).
    { intros ?. by apply Hnin, Hinv. }
    assert (Hopen1 : ∀ x, o_open st1 x ↔ o_open st x ∨ x = node).
    { intros x. unfold o_open, st1; simpl.
      rewrite elem_of_union, elem_of_singleton. split.
      - intros [[->|?] ?]; [by right|by left].
      - intros [[? ?]| ->]; auto. }
    destruct (order_any_loop_ok fuel IH (deps g node) st1 st2)
      as [(Hinv2 & [ext Hext] & Hopen2 & Hsub2) Hds]; [| | |done|].
    { destruct Hinv as [? Hv Hu He]. split; simpl; [done| | |].
      - intros x ?. apply elem_of_union; right. by apply Hv.
      - intros x [->%elem_of_singleton|?]%elem_of_union; [done|by apply Hu].
      - intros x y Hx Hxy. destruct (He x y Hx Hxy) as [? ?].
        split; [|done]. apply elem_of_union. by right. }
    { intros d Hd. right. by exists node. }
    { intros d x Hd [Hx| ->]%Hopen1.
      - eapply tc_r; [by apply Hopen|done].
      - by apply tc_once. }
    simpl in Hext, Hsub2.
    assert (Hnode2 : o_open st2 node).
    { apply Hopen2, Hopen1. by right. }
    split; [split_and!|]; simpl.
    + destruct Hinv2 as [Hnd Hv Hu He]. split; simpl.
      * apply NoDup_app. split_and!; [done| |apply NoDup_singleton].
        intros x Hx ->%list_elem_of_singleton. by apply Hnode2.
      * intros x [Hx| ->%list_elem_of_singleton]%elem_of_app; [by auto|].
        apply Hnode2.
      * done.
      * intros x y [Hx| ->%list_elem_of_singleton]%elem_of_app Hxy.
        -- destruct (He x y Hx Hxy) as [? [?|?]]; split; [done| |done|];
             [left; by apply before_app_r|by right].
        -- split; [by apply Hds|].
           destruct (decide (y ∈ o_result st2)) as [Hy|Hy].
           ++ left. by apply before_snoc.
           ++ right. assert (o_open st1 y) as [Hy1| ->]%Hopen1.
              { apply Hopen2. split; [by apply Hds|done]. }
              ** by apply Hopen.
              ** by apply tc_once.
    + exists (ext ++ [node]). by rewrite Hext, app_assoc.
    + intros x. unfold o_open at 1; simpl.
      rewrite elem_of_app, list_elem_of_singleton. split.
      * intros [Hx Hnx].
        assert (o_open st1 x) as [?| ->]%Hopen1; [|done|tauto].
        apply Hopen2. split; [done|tauto].
      * intros Hx. assert (o_open st2 x) as [? ?].
        { apply Hopen2, Hopen1. by left. }
        split; [done|]. intros [?| ->]; [done|]. by destruct Hx.
    + set_solver.
    + apply Hnode2.
Qed.

Lemma order_init_any_inv : order_any_inv g order_init.
Proof.
  split; simpl.
  - apply NoDup_nil_2.
  - by intros x ?%elem_of_nil.
  - by intros x ?%elem_of_empty.
  - by intros x y ?%elem_of_nil.
Qed.

Lemma get_build_order_any fuel :
  enough_fuel g ≤ fuel →
  ∃ order,
    get_build_order fuel g = Done order
    ∧ NoDup order
    ∧ (∀ x, x ∈ order ↔ is_node g x)
    ∧ (∀ a b, edge g a b → before b a order ∨ tc (edge g) b a).
Proof.
  intros Hfuel.
  destruct (get_build_order_runs g fuel Hfuel) as (st & Hst & ->).
  destruct (order_any_loop_ok fuel (order_any_visit_all_ok fuel)
              (dict_keys g) order_init st)
    as [(Hinv & _ & Hopen & _) Hkeys]; [apply order_init_any_inv| | |done|].
  { intros d ?. by left. }
  { intros d x _ [Hx _]. by apply elem_of_empty in Hx. }
  assert (Hall : ∀ x, x ∈ o_visited st → x ∈ o_result st).
  { intros x Hx. destruct (decide (x ∈ o_result st)) as [|Hn]; [done|].
    assert (o_open order_init x) as [?%elem_of_empty _]; [|done].
    by apply Hopen. }
  exists (o_result st). split_and!; [done|apply Hinv| |].
  - intros x. split.
    + intros Hx. by apply Hinv, Hinv.
    + intros [Hx|[k Hk]]; apply Hall; [by apply Hkeys|].
      apply (order_any_edge g st Hinv k x); [|done].
      by apply Hall, Hkeys, (edge_key g k x).
  - intros a b Hab. apply (order_any_edge g st Hinv a b); [|done].
    by apply Hall, Hkeys, (edge_key g a b).
Qed.
End order_any.

(** ** Cycle detection decides acyclicity *)

Lemma tc_chain (g : DependencyResolver.graph) x y :
  tc (edge g) x y → ∃ l, chain g (x :: l ++ [y]).
Proof.
  induction 1 as [x y Hxy|x z y Hxz _ [l IH]].
  - by exists [].
  - exists (z :: l). by split.
Qed.

Lemma no_reported_cycle_acyclic (g : DependencyResolver.graph) (fuel : nat) :
  enough_fuel g ≤ fuel →
  DependencyResolver.detect_cycles fuel g = Done [] → acyclic g.
Proof.
  intros Hfuel Hnone.
  destruct (detect_cycles_runs g fuel Hfuel) as (st & fin & Hrun & Hinv & Hkeys).
  rewrite Hnone in Hrun. injection Hrun as Hnil.
  intros x [l Hl]%tc_chain.
  destruct (chain_descends g st fin Hinv Hkeys (l ++ [x]) x Hl)
    as [(p1 & u & w & p2 & _ & pre & Hin & _)|(y & Hy & Hbefore)].
  - by destruct l.
  - rewrite <-Hnil in Hin. by apply elem_of_nil in Hin.
  - rewrite last_snoc in Hy. injection Hy as <-.
    destruct (before_irrefl x fin); [apply Hinv|done].
Qed.

(** X3. The reported list is empty exactly when the graph has no
    cycle: a graph with a cycle always gets at least one reported. *)
Theorem detect_cycles_empty_iff_acyclic
    (g : DependencyResolver.graph) (fuel : nat) :
  enough_fuel g ≤ fuel →
  ∃ cycles,
    DependencyResolver.detect_cycles fuel g = Done cycles
    ∧ (cycles = [] ↔ acyclic g).
Proof.
  intros Hfuel.
  destruct (detect_cycles_runs g fuel Hfuel) as (st & fin & Hrun & Hinv & _).
  exists (DependencyResolver.c_cycles st). split; [done|]. split.
  - intros Hnil. rewrite Hnil in Hrun. by eapply no_reported_cycle_acyclic.
  - intros Hacyclic.
    destruct (DependencyResolver.c_cycles st) as [|c cs] eqn:Hcs; [done|].
    destruct (cycle_path_tc g c) as (n & _ & Hn).
    + apply (ci_genuine g st fin Hinv). rewrite Hcs. left.
    + by destruct (Hacyclic n).
Qed.

Lemma detect_cycles_empty_iff_acyclic_witness :
  ∃ cycles,
    DependencyResolver.detect_cycles 8 two_cycles = Done cycles
    ∧ (cycles = [] ↔ acyclic two_cycles).
Proof. apply (detect_cycles_empty_iff_acyclic two_cycles 8). vm_compute. lia. Defined.

(** X1. For every graph, cyclic or not, the build order lists every key
    and every dependency exactly once, and nothing else. *)
Theorem build_order_lists_every_node_once
    (g : DependencyResolver.graph) (fuel : nat) :
  enough_fuel g ≤ fuel →
  ∃ order,
    DependencyResolver.get_build_order fuel g = Done order
    ∧ NoDup order
    ∧ ∀ x, x ∈ order ↔ x ∈ dict_keys g ∨ ∃ k, edge g k x.
Proof.
  intros Hfuel.
  destruct (get_build_order_any g fuel Hfuel) as (order & ? & ? & ? & _).
  by exists order.
Qed.

Lemma build_order_lists_every_node_once_witness :
  ∃ order,
    DependencyResolver.get_build_order 8 two_cycles = Done order
    ∧ NoDup order
    ∧ ∀ x, x ∈ order ↔ x ∈ dict_keys two_cycles ∨ ∃ k, edge two_cycles k x.
Proof. apply (build_order_lists_every_node_once two_cycles 8). vm_compute. lia. Defined.

(** X2. For every graph, a dependency stands before its dependent in
    the build order unless it depends, directly or not, on that
    dependent: only edges that lie on a cycle can be out of order. *)
Theorem build_order_respects_edges_off_cycles
    (g : DependencyResolver.graph) (fuel : nat) :
  enough_fuel g ≤ fuel →
  ∃ order,
    DependencyResolver.get_build_order fuel g = Done order
    ∧ ∀ a b, edge g a b → before b a order ∨ tc (edge g) b a.
Proof.
  intros Hfuel.
  destruct (get_build_order_any g fuel Hfuel) as (order & ? & _ & _ & ?).
  by exists order.
Qed.

Lemma build_order_respects_edges_off_cycles_witness :
  ∃ order,
    DependencyResolver.get_build_order 8 two_cycles = Done order
    ∧ ∀ a b, edge two_cycles a b → before b a order ∨ tc (edge two_cycles) b a.
Proof.
  apply (build_order_respects_edges_off_cycles two_cycles 8). vm_compute. lia.
Defined.

(** X4. When [detect_cycles] reports nothing, the build order puts every
    dependency before its dependent. *)
Theorem no_reported_cycle_build_order_valid
    (g : DependencyResolver.graph) (fuel : nat) :
  enough_fuel g ≤ fuel →
  DependencyResolver.detect_cycles fuel g = Done [] →
  ∃ order,
    DependencyResolver.get_build_order fuel g = Done order
    ∧ NoDup order
    ∧ ∀ a b, edge g a b → before b a order.
Proof.
  intros Hfuel Hnone.
  assert (Hacyclic : acyclic g) by by eapply no_reported_cycle_acyclic.
  destruct (get_build_order_any g fuel Hfuel) as (order & ? & ? & _ & Hedges).
  exists order. split_and!; [done..|]. intros a b Hab.
  destruct (Hedges a b Hab) as [?|Hba]; [done|].
  destruct (Hacyclic a). by eapply tc_l.
Qed.

Lemma no_reported_cycle_build_order_valid_witness :
  ∃ order,
    DependencyResolver.get_build_order 3 [("app", ["lib"])] = Done order
    ∧ NoDup order
    ∧ ∀ a b, edge [("app", ["lib"])] a b → before b a order.
Proof.
  apply (no_reported_cycle_build_order_valid [("app", ["lib"])] 3).
  - vm_compute. lia.
  - vm_compute. reflexivity.
Defined.

(** ** File signatures: pruned directories and local changes *)

Lemma tree_file_valid entries parts f :
  wf (IntelligentAnalyzer.DirNode entries) = true →
  tree_file entries parts f →
  parts ≠ [] ∧ Forall (λ s, has_slash s = false) parts.
Proof.
  intros Hwf Ht.
  induction Ht as [entries name f Hin|entries name children parts f Hin Ht IH].
  - apply wf_dir in Hwf as [_ Hall]. destruct (Hall _ _ Hin) as [? _].
    split; [done|]. by apply Forall_singleton.
  - apply wf_dir in Hwf as [_ Hall]. destruct (Hall _ _ Hin) as [? Hc].
    split; [done|]. apply Forall_cons. split; [done|]. by apply IH.
Qed.

Lemma kept_middle pre d rest : kept (pre ++ d :: rest) → rest ≠ [] →
  IntelligentAnalyzer.pruned d = false.
Proof.
  induction pre as [|x pre IH]; intros Hk Hrest.
  - destruct rest; [done|]. by destruct Hk.
  - apply IH; [|done]. simpl in Hk.
    destruct (pre ++ d :: rest) eqn:Heq; [by destruct pre|]. by destruct Hk.
Qed.

Lemma tree_file_replace_head name f1 f2 t parts f :
  parts ≠ [name] →
  tree_file ((name, IntelligentAnalyzer.FileNode f1) :: t) parts f
  ↔ tree_file ((name, IntelligentAnalyzer.FileNode f2) :: t) parts f.
Proof.
  assert (∀ f1 f2,
            parts ≠ [name] →
            tree_file ((name, IntelligentAnalyzer.FileNode f1) :: t) parts f →
            tree_file ((name, IntelligentAnalyzer.FileNode f2) :: t) parts f)
    as Himpl.
  { intros g1 g2 Hne Ht.
    inversion Ht as [? name' ? Hin|? name' children parts' ? Hin Hbelow]; subst.
    - apply elem_of_cons in Hin as [[= -> ->]|Hin]; [done|].
      apply tree_file_here. by right.
    - apply elem_of_cons in Hin as [[=]|Hin].
      eapply tree_file_below; [by right|done]. }
  intros Hne. split; by apply Himpl.
Qed.

(** X5. No file below a directory named [.git], [node_modules] or
    [__pycache__], at any depth, gets an entry in the signatures. *)
Theorem pruned_directories_not_signed
    (sha256_hexdigest : list byte → string)
    (entries : list (string * IntelligentAnalyzer.node))
    (pre : list string) (d : string) (rest : list string)
    (f : IntelligentAnalyzer.file) :
  wf (IntelligentAnalyzer.DirNode entries) = true →
  IntelligentAnalyzer.pruned d = true →
  rest ≠ [] →
  tree_file entries (pre ++ d :: rest) f →
  IntelligentAnalyzer._compute_file_signatures sha256_hexdigest
    (IntelligentAnalyzer.DirNode entries)
    !! IntelligentAnalyzer.rel_path (pre ++ d :: rest)
  = None.
Proof.
  intros Hwf Hd Hrest Ht. apply eq_None_not_Some. intros [digest Hsome].
  apply signatures_lookup in Hsome as (parts & f' & Hk & Hw & _); [|done].
  destruct (tree_file_valid _ _ _ Hwf Ht) as [? ?].
  destruct (walked_valid _ _ _ Hwf Hw) as [? ?].
  apply rel_path_inj in Hk as <-; [|done..].
  apply walked_tree_file in Hw as [_ Hkept].
  apply kept_middle in Hkept; [congruence|done].
Qed.

Lemma pruned_directories_not_signed_witness :
  IntelligentAnalyzer._compute_file_signatures constant_digest
    (IntelligentAnalyzer.DirNode project) !! ".git/HEAD" = None.
Proof.
  apply (pruned_directories_not_signed constant_digest project []
           ".git" ["HEAD"] small_file).
  - vm_compute. reflexivity.
  - reflexivity.
  - done.
  - eapply tree_file_below; [right; right; left|]. apply tree_file_here. left.
Defined.

(** X6. When two trees differ only in the file at one path, their
    signatures agree at every other key. *)
Theorem signature_change_is_local
    (sha256_hexdigest : list byte → string)
    (t1 t2 : list (string * IntelligentAnalyzer.node)) (p : list string) :
  wf (IntelligentAnalyzer.DirNode t1) = true →
  wf (IntelligentAnalyzer.DirNode t2) = true →
  (∀ parts f, parts ≠ p → tree_file t1 parts f ↔ tree_file t2 parts f) →
  ∀ k, k ≠ IntelligentAnalyzer.rel_path p →
    IntelligentAnalyzer._compute_file_signatures sha256_hexdigest
      (IntelligentAnalyzer.DirNode t1) !! k
    = IntelligentAnalyzer._compute_file_signatures sha256_hexdigest
        (IntelligentAnalyzer.DirNode t2) !! k.
Proof.
  intros Hwf1 Hwf2 Hsame k Hk. apply option_eq. intros d.
  rewrite !signatures_lookup by done.
  split; intros (parts & f & -> & [Ht Hkept]%walked_tree_file & Hsig);
    exists parts, f; (split_and!; [done| |done]);
    apply walked_tree_file; (split; [|done]); apply Hsame; try done;
    by intros ->.
Qed.

Lemma signature_change_is_local_witness :
  IntelligentAnalyzer._compute_file_signatures constant_digest
    (IntelligentAnalyzer.DirNode
       (("main.py", IntelligentAnalyzer.FileNode small_file)
        :: project)) !! "src/main.py"
  = IntelligentAnalyzer._compute_file_signatures constant_digest
      (IntelligentAnalyzer.DirNode
         (("main.py", IntelligentAnalyzer.FileNode locked_file)
          :: project)) !! "src/main.py".
Proof.
  apply (signature_change_is_local constant_digest _ _ ["main.py"]).
  - vm_compute. reflexivity.
  - vm_compute. reflexivity.
  - intros parts f Hne. by apply tree_file_replace_head.
  - done.
Defined.

(** ** The cache: further results *)

Section cache_more.
Import SmartCache.

Lemma ends_with_append pre suffix : ends_with suffix (pre +:+ suffix) = true.
Proof.
  induction pre as [|c pre IH]; simpl.
  - destruct suffix; simpl; [done|]. by rewrite Ascii.eqb_refl, String.eqb_refl.
  - by rewrite IH, Tauto.if_same.
Qed.

Lemma get_index_None key dir :
  dict_get key (_load_index dir) = None → get key dir = None.
Proof. intros H. unfold get, dict_mem. by rewrite H. Qed.


Lemma dict_del_absent {V} (d : dict V) k :
  dict_get k d = None → dict_del k d = d.
Proof.
  induction d as [|[k' v'] d IH]; simpl; [done|].
  destruct (decide (k' = k)); [done|]. intros H. f_equal. by apply IH.
Qed.

Lemma dict_del_elem {V} (d : dict V) k k' v :
  (k', v) ∈ dict_del k d → k' ≠ k ∧ (k', v) ∈ d.
Proof.
  induction d as [|[k0 v0] d IH]; simpl; [by intros ?%elem_of_nil|].
  destruct (decide (k0 = k)) as [->|Hne].
  - intros [? ?]%IH. split; [done|by right].
  - intros [[= -> ->]|[? ?]%IH]%elem_of_cons; (split; [done|]); [left|by right].
Qed.

Lemma filter_none {A} (P : A → Prop) `{∀ x, Decision (P x)} (l : list A) :
  (∀ x, x ∈ l → ¬ P x) → filter P l = [].
Proof.
  induction l as [|x l IH]; intros Hall; [done|].
  rewrite filter_cons_False by (apply Hall; left).
  apply IH. intros y ?. apply Hall. by right.
Qed.

Lemma invalidate_all_elem keys dir k item :
  (k, item) ∈ _load_index (foldl (λ dir1 key, invalidate key dir1) dir keys) →
  (k ∉ keys) ∧ (k, item) ∈ _load_index dir.
Proof.
  revert dir. induction keys as [|key keys IH]; intros dir; simpl.
  - intros ?. split; [by intros ?%elem_of_nil|done].
  - intros [Hk Hin]%IH. unfold invalidate in Hin.
    destruct (dict_get key (_load_index dir)) as [item0|] eqn:Hkey.
    + rewrite load_save in Hin. apply dict_del_elem in Hin as [? ?].
      split; [|done]. by intros [?|?]%elem_of_cons.
    + split; [|done]. intros [->|?]%elem_of_cons; [|done].
      assert (is_Some (dict_get key (_load_index dir))) as [? ?]; [|congruence].
      apply dict_get_is_Some, list_elem_of_fmap. by exists (key, item).
Qed.
End cache_more.





(** X9. After [clear], [get] finds nothing under any key, the files
    whose name ends with [.cache] are gone and every other file of the
    directory is as before; clearing twice is clearing once. *)
Theorem clear_removes_every_entry (dir : SmartCache.cache_dir) :
  (∀ key, SmartCache.get key (SmartCache.clear dir) = None)
  ∧ (∀ key,
       SmartCache.files (SmartCache.clear dir)
         !! SmartCache.cache_file key = None)
  ∧ (∀ name,
       SmartCache.ends_with ".cache" name = false →
       SmartCache.files (SmartCache.clear dir) !! name
       = SmartCache.files dir !! name)
  ∧ SmartCache.clear (SmartCache.clear dir) = SmartCache.clear dir.
Proof.
  split_and!.
  - intros key. by apply get_index_None.
  - intros key. apply map_lookup_filter_None. right. intros f _. simpl.
    unfold SmartCache.cache_file. by rewrite ends_with_append.
  - intros name Hname. simpl. apply option_eq. intros f.
    rewrite map_lookup_filter_Some. simpl. tauto.
  - unfold SmartCache.clear. simpl. f_equal. apply map_eq. intros name.
    apply option_eq. intros f. rewrite !map_lookup_filter_Some. tauto.
Qed.

(** X11. [invalidate_dependent] applied a second time with the same
    dependency changes nothing. *)
Theorem invalidate_dependent_idempotent
    (dir : SmartCache.cache_dir) (dependency : string) :
  SmartCache.invalidate_dependent dependency
    (SmartCache.invalidate_dependent dependency dir)
  = SmartCache.invalidate_dependent dependency dir.
Proof.
  unfold SmartCache.invalidate_dependent at 1.
  set (dir' := SmartCache.invalidate_dependent dependency dir).
  assert (filter (λ item, dependency ∈ SmartCache.dependencies item.2)
            (SmartCache._load_index dir') = []) as ->; [|done].
  apply filter_none. intros [k item] Hin Hdep.
  apply invalidate_all_elem in Hin as [Hk Hin]. apply Hk.
  apply to_invalidate_elem. by exists item.
Qed.

(** ** The cache as a finite map *)

Section cache_map.
Import SmartCache.
Implicit Types (m : gmap string (json * list string)).








End cache_map.



(** ** The orchestrator *)

Section orchestrator.
Import BuildOrchestrator.
Variable subprocess_run : list string → string → process.

Lemma execute_command_history command history :
  (_execute_command subprocess_run command history).2 = history ++ [command].
Proof. done. Qed.

Lemma standard_loop_cons cmd rest outputs history :
  standard_loop subprocess_run (cmd :: rest) outputs history
  = let line :=
      "Command: " +:+ cmd +:+ nl
      +:+ (_execute_command subprocess_run cmd history).1.2 in
    if succeeds subprocess_run history cmd
    then standard_loop subprocess_run rest (outputs ++ [line])
           (history ++ [cmd])
    else ((false, outputs ++ [line]), history ++ [cmd]).
Proof.
  unfold succeeds. cbn [standard_loop]. unfold _execute_command.
  by destruct (subprocess_run history cmd) as [returncode ? ?| |];
    [destruct (bool_decide (returncode = 0%Z))|..].
Qed.

Lemma parallel_loop_cons cmd rest results history :
  parallel_loop subprocess_run (cmd :: rest) results history
  = parallel_loop subprocess_run rest
      (results ++ [(_execute_command subprocess_run cmd history).1])
      (history ++ [cmd]).
Proof. done. Qed.

Lemma standard_loop_ok commands outputs history :
  all_succeed subprocess_run history commands = true →
  (standard_loop subprocess_run commands outputs history).1.1 = true
  ∧ (standard_loop subprocess_run commands outputs history).2
    = history ++ commands.
Proof.
  revert outputs history.
  induction commands as [|cmd rest IH]; intros outputs history.
  - intros _. simpl. by rewrite app_nil_r.
  - intros [Hcmd Hrest]%andb_true_iff.
    rewrite standard_loop_cons. cbv zeta. rewrite Hcmd.
    destruct (IH (outputs ++
                    ["Command: " +:+ cmd +:+ nl
                     +:+ (_execute_command subprocess_run cmd history).1.2])
                (history ++ [cmd]) Hrest) as [-> ->].
    by rewrite <-app_assoc.
Qed.

Lemma standard_loop_fails commands outputs history :
  all_succeed subprocess_run history commands = false →
  (standard_loop subprocess_run commands outputs history).1.1 = false
  ∧ ∃ pre cmd post,
      commands = pre ++ cmd :: post
      ∧ all_succeed subprocess_run history pre = true
      ∧ succeeds subprocess_run (history ++ pre) cmd = false
      ∧ (standard_loop subprocess_run commands outputs history).2
        = history ++ pre ++ [cmd].
Proof.
  revert outputs history.
  induction commands as [|cmd rest IH]; intros outputs history; [done|].
  intros Hall. rewrite standard_loop_cons. cbv zeta.
  change (all_succeed subprocess_run history (cmd :: rest))
    with (succeeds subprocess_run history cmd
          && all_succeed subprocess_run (history ++ [cmd]) rest) in Hall.
  destruct (succeeds subprocess_run history cmd) eqn:Hcmd.
  - destruct (IH (outputs ++
                    ["Command: " +:+ cmd +:+ nl
                     +:+ (_execute_command subprocess_run cmd history).1.2])
                (history ++ [cmd]) Hall)
      as (-> & pre & c & post & -> & Hpre & Hc & ->).
    split; [done|]. exists (cmd :: pre), c, post.
    change (all_succeed subprocess_run history (cmd :: pre))
      with (succeeds subprocess_run history cmd
            && all_succeed subprocess_run (history ++ [cmd]) pre).
    rewrite Hcmd, Hpre. rewrite <-!app_assoc in *. by split_and!.
  - split; [done|]. exists [], cmd, rest. rewrite app_nil_r. by split_and!.
Qed.

Lemma parallel_loop_ok commands results history :
  forallb fst (parallel_loop subprocess_run commands results history).1
  = forallb fst results && all_succeed subprocess_run history commands
  ∧ (parallel_loop subprocess_run commands results history).2
    = history ++ commands.
Proof.
  revert results history.
  induction commands as [|cmd rest IH]; intros results history.
  - simpl. by rewrite andb_true_r, app_nil_r.
  - rewrite parallel_loop_cons.
    destruct (IH (results ++ [(_execute_command subprocess_run cmd history).1])
                (history ++ [cmd])) as [-> ->].
    split; [|by rewrite <-app_assoc].
    rewrite forallb_app.
    change (all_succeed subprocess_run history (cmd :: rest))
      with (succeeds subprocess_run history cmd
            && all_succeed subprocess_run (history ++ [cmd]) rest).
    unfold succeeds. simpl. by rewrite andb_true_r, andb_assoc.
Qed.

Lemma standard_builds_success context dir history :
  (_execute_standard_builds subprocess_run context dir history).1.1
  = all_succeed subprocess_run history (_generate_build_commands context dir).
Proof.
  unfold _execute_standard_builds.
  destruct (all_succeed subprocess_run history
              (_generate_build_commands context dir)) eqn:Hall.
  - destruct (standard_loop_ok _ [] history Hall) as [H _].
    by destruct (standard_loop _ _ _ _) as [[? ?] ?].
  - destruct (standard_loop_fails _ [] history Hall) as [H _].
    by destruct (standard_loop _ _ _ _) as [[? ?] ?].
Qed.

Lemma parallel_build_success context dir history :
  (_parallel_build subprocess_run context dir history).1.1
  = all_succeed subprocess_run history (_generate_build_commands context dir).
Proof.
  unfold _parallel_build.
  destruct (parallel_loop_ok (_generate_build_commands context dir) [] history)
    as [H _].
  by destruct (parallel_loop _ _ _ _) as [? ?].
Qed.
End orchestrator.

(** ** The orchestrator: results *)

(** A shell in which every command but [make] returns code 0. *)
Example shell_outcome :
  succeeds shell [] "cmake .." = true ∧ succeeds shell [] "make" = false.
Proof. split; reflexivity. Qed.

(** X12. After [save_build_cache], [_has_valid_cache] holds for exactly
    the contexts whose file signatures equal the saved ones. *)
Theorem saved_cache_valid_iff_same_signatures
    (saved current : ProjectContext.t) (dir : BuildOrchestrator.project_dir) :
  BuildOrchestrator._has_valid_cache current
    (BuildOrchestrator.save_build_cache saved dir) = true
  ↔ ProjectContext.file_signatures current
    = ProjectContext.file_signatures saved.
Proof.
  unfold BuildOrchestrator._has_valid_cache, BuildOrchestrator.save_build_cache.
  simpl. rewrite bool_decide_eq_true. split; by intros ->.
Qed.

(** X13. [_execute_standard_builds] runs the generated commands in
    order and stops at the first one that fails: it reports success
    when all of them ran and succeeded, and failure when one failed, in
    which case no later command ran. *)
Theorem standard_builds_stop_at_first_failure
    (subprocess_run : list string → string → BuildOrchestrator.process)
    (context : ProjectContext.t) (dir : BuildOrchestrator.project_dir)
    (history : list string) :
  let commands := BuildOrchestrator._generate_build_commands context dir in
  let result :=
    BuildOrchestrator._execute_standard_builds subprocess_run context dir
      history in
  (result.1.1 = true
   ∧ result.2 = history ++ commands
   ∧ all_succeed subprocess_run history commands = true)
  ∨ (result.1.1 = false
     ∧ ∃ pre cmd post,
         commands = pre ++ cmd :: post
         ∧ result.2 = history ++ pre ++ [cmd]
         ∧ all_succeed subprocess_run history pre = true
         ∧ succeeds subprocess_run (history ++ pre) cmd = false).
Proof.
  intros commands result. subst result.
  unfold BuildOrchestrator._execute_standard_builds. fold commands.
  destruct (all_succeed subprocess_run history commands) eqn:Hall.
  - left. destruct (standard_loop_ok subprocess_run commands [] history Hall)
      as [Hok Hhist].
    destruct (BuildOrchestrator.standard_loop _ _ _ _) as [[? ?] ?].
    by split_and!.
  - right. destruct (standard_loop_fails subprocess_run commands [] history Hall)
      as (Hok & pre & cmd & post & Hcmds & Hpre & Hcmd & Hhist).
    destruct (BuildOrchestrator.standard_loop _ _ _ _) as [[? ?] ?].
    split; [done|]. by exists pre, cmd, post.
Qed.

(** X14. [_parallel_build] runs every generated command, whether or not
    an earlier one failed, and reports success exactly when all of them
    succeeded. *)
Theorem parallel_build_runs_every_command
    (subprocess_run : list string → string → BuildOrchestrator.process)
    (context : ProjectContext.t) (dir : BuildOrchestrator.project_dir)
    (history : list string) :
  let commands := BuildOrchestrator._generate_build_commands context dir in
  let result :=
    BuildOrchestrator._parallel_build subprocess_run context dir history in
  result.2 = history ++ commands
  ∧ result.1.1 = all_succeed subprocess_run history commands.
Proof.
  intros commands result. subst result.
  unfold BuildOrchestrator._parallel_build. fold commands.
  destruct (parallel_loop_ok subprocess_run commands [] history) as [Hok Hhist].
  destruct (BuildOrchestrator.parallel_loop _ _ _ _) as [? ?].
  by split.
Qed.

(** X15. [_execute_standard_builds] and [_parallel_build] report the
    same success flag: running on after a failure cannot turn it into a
    success. *)
Theorem standard_and_parallel_agree
    (subprocess_run : list string → string → BuildOrchestrator.process)
    (context : ProjectContext.t) (dir : BuildOrchestrator.project_dir)
    (history : list string) :
  (BuildOrchestrator._execute_standard_builds subprocess_run context dir
     history).1.1
  = (BuildOrchestrator._parallel_build subprocess_run context dir
       history).1.1.
Proof.
  by rewrite standard_builds_success, parallel_build_success.
Qed.

(** X16. Asked for [PREDICTIVE_CACHE], [orchestrate_build] runs no
    command and reports success, whether or not a valid cache exists;
    asked for any other strategy but [ADAPTIVE_LEARNING], it reports
    success exactly when every generated command succeeds. *)
Theorem orchestrate_build_explicit_strategy
    (subprocess_run : list string → string → BuildOrchestrator.process)
    (strategy : BuildStrategy)
    (context : ProjectContext.t) (dir : BuildOrchestrator.project_dir)
    (history : list string) :
  strategy ≠ ADAPTIVE_LEARNING →
  let result :=
    BuildOrchestrator.orchestrate_build subprocess_run strategy context dir
      history in
  (strategy = PREDICTIVE_CACHE →
   result = ((true, "Build succeeded (cached)"), history))
  ∧ (strategy ≠ PREDICTIVE_CACHE →
     result.1.1
     = all_succeed subprocess_run history
         (BuildOrchestrator._generate_build_commands context dir)).
Proof.
  intros Hne result. subst result.
  destruct strategy; (split; [try done|intros Hnp; try done]);
    first [apply standard_builds_success|apply parallel_build_success].
Qed.

Lemma orchestrate_build_explicit_strategy_witness :
  BuildOrchestrator.orchestrate_build shell PREDICTIVE_CACHE
    cmake_context bare_dir []
  = ((true, "Build succeeded (cached)"), []).
Proof.
  by apply (orchestrate_build_explicit_strategy shell PREDICTIVE_CACHE
              cmake_context bare_dir []).
Defined.

Lemma hint_infer_cache_beneficial context :
  BuildOrchestrator.hint "cache_beneficial" (_infer_build_patterns context)
  = any_in ["javascript"; "typescript"; "rust"]
      (ProjectContext.languages context).
Proof.
  unfold BuildOrchestrator.hint, _infer_build_patterns.
  cbn [ProjectContext.optimization_hints].
  by repeat (destruct (bool_decide _) || destruct (any_in _ _)).
Qed.

(** X17. Under [ADAPTIVE_LEARNING], with the hints that
    [_infer_build_patterns] computes, the build is skipped (no command
    runs and success is reported) exactly when one of javascript,
    typescript and rust is among the languages and the saved signatures
    equal the current ones; in every other case success is reported
    exactly when every generated command succeeds. *)
Theorem adaptive_build_skips_only_with_cache
    (subprocess_run : list string → string → BuildOrchestrator.process)
    (context : ProjectContext.t) (dir : BuildOrchestrator.project_dir)
    (history : list string) :
  let context' := _infer_build_patterns context in
  let result :=
    BuildOrchestrator.orchestrate_build subprocess_run ADAPTIVE_LEARNING
      context' dir history in
  if any_in ["javascript"; "typescript"; "rust"]
       (ProjectContext.languages context)
     && BuildOrchestrator._has_valid_cache context dir
  then result = ((true, "Build succeeded (cached)"), history)
  else
    result.1.1
    = all_succeed subprocess_run history
        (BuildOrchestrator._generate_build_commands context' dir).
Proof.
  intros context' result. subst result.
  pose proof (hint_infer_cache_beneficial context) as Hcb. fold context' in Hcb.
  assert (Hvalid : BuildOrchestrator._has_valid_cache context' dir
                   = BuildOrchestrator._has_valid_cache context dir) by done.
  unfold BuildOrchestrator.orchestrate_build,
    BuildOrchestrator._select_optimal_strategy.
  rewrite Hcb, Hvalid.
  destruct (any_in _ (ProjectContext.languages context)
            && BuildOrchestrator._has_valid_cache context dir); [done|].
  destruct (BuildOrchestrator.hint "incremental_capable" context');
    [apply standard_builds_success|].
  destruct (BuildOrchestrator.hint "parallel_capable" context');
    [apply parallel_build_success|apply standard_builds_success].
Qed.

(** X18. With no build tool in the context no command is generated, and
    every strategy reports success without running anything. *)
Theorem no_build_tools_succeeds
    (subprocess_run : list string → string → BuildOrchestrator.process)
    (strategy : BuildStrategy)
    (context : ProjectContext.t) (dir : BuildOrchestrator.project_dir)
    (history : list string) :
  ProjectContext.build_tools context = [] →
  let result :=
    BuildOrchestrator.orchestrate_build subprocess_run strategy context dir
      history in
  BuildOrchestrator._generate_build_commands context dir = []
  ∧ result.1.1 = true ∧ result.2 = history.
Proof.
  intros Htools result. subst result.
  assert (Hnone : BuildOrchestrator._generate_build_commands context dir = []).
  { unfold BuildOrchestrator._generate_build_commands. by rewrite Htools. }
  split; [done|].
  assert (Hstd :
    BuildOrchestrator._execute_standard_builds subprocess_run context dir history
    = ((true, EmptyString), history)).
  { unfold BuildOrchestrator._execute_standard_builds. by rewrite Hnone. }
  assert (Hpar :
    BuildOrchestrator._parallel_build subprocess_run context dir history
    = ((true, EmptyString), history)).
  { unfold BuildOrchestrator._parallel_build. by rewrite Hnone. }
  unfold BuildOrchestrator.orchestrate_build,
    BuildOrchestrator._graph_based_build, BuildOrchestrator._incremental_build,
    BuildOrchestrator._adaptive_build.
  destruct strategy; rewrite ?Hstd, ?Hpar; try done.
  destruct (BuildOrchestrator._select_optimal_strategy context dir);
    by rewrite ?Hstd, ?Hpar.
Qed.

Lemma no_build_tools_succeeds_witness :
  BuildOrchestrator._generate_build_commands
    (ProjectContext.Make ["python"] [] ∅ []) bare_dir = []
  ∧ (BuildOrchestrator.orchestrate_build shell ADAPTIVE_LEARNING
       (ProjectContext.Make ["python"] [] ∅ []) bare_dir []).1.1 = true
  ∧ (BuildOrchestrator.orchestrate_build shell ADAPTIVE_LEARNING
       (ProjectContext.Make ["python"] [] ∅ []) bare_dir []).2 = [].
Proof. by apply (no_build_tools_succeeds shell ADAPTIVE_LEARNING). Defined.

(** ** The metrics file *)

(** X19. [end_build] on a collector with a current build leaves a
    metrics file of at most 100 builds that ends with the completed
    build and is the tail of the earlier builds followed by it; no
    earlier build is dropped while there are fewer than 100.  The
    current build is then unset, so a second [end_build] changes
    nothing. *)
Theorem end_build_keeps_last_100
    (build : Type) (update update' : build → build)
    (self : MetricsCollector.t build) (current : build) :
  MetricsCollector.current_build build self = Some current →
  let earlier :=
    match MetricsCollector.metrics_file build self with
    | Some (SmartCache.Holds metrics) => metrics
    | _ => []
    end in
  let self' := MetricsCollector.end_build build update self in
  ∃ metrics,
    MetricsCollector.metrics_file build self' = Some (SmartCache.Holds metrics)
    ∧ length metrics ≤ 100
    ∧ last metrics = Some (update current)
    ∧ metrics `suffix_of` earlier ++ [update current]
    ∧ (length earlier < 100 → metrics = earlier ++ [update current])
    ∧ MetricsCollector.current_build build self' = None
    ∧ MetricsCollector.end_build build update' self' = self'.
Proof.
  intros Hcurrent earlier self'. subst self'.
  unfold MetricsCollector.end_build, MetricsCollector._save_metrics.
  rewrite Hcurrent. simpl.
  assert (Hearlier :
    match MetricsCollector.metrics_file build self with
    | Some (SmartCache.Holds metrics) => metrics
    | Some SmartCache.Unreadable | Some SmartCache.Malformed | None => []
    end = earlier).
  { subst earlier. by destruct (MetricsCollector.metrics_file build self)
      as [[| |?]|]. }
  rewrite Hearlier. set (all := earlier ++ [update current]).
  assert (Hlen : length all = S (length earlier)).
  { unfold all. rewrite length_app. simpl. lia. }
  exists (drop (length all - 100) all). split_and!; [done| | | | |done|done].
  - rewrite length_drop. lia.
  - rewrite last_lookup, lookup_drop, length_drop.
    replace (length all - 100 + pred (length all - (length all - 100)))
      with (length earlier) by lia.
    unfold all. by rewrite list_lookup_middle.
  - apply suffix_drop.
  - intros Hlt. by replace (length all - 100) with 0 by lia.
Qed.

Lemma end_build_keeps_last_100_witness :
  ∃ metrics,
    MetricsCollector.metrics_file nat
      (MetricsCollector.end_build nat S
         (MetricsCollector.Make nat (Some SmartCache.Malformed) (Some 0)))
    = Some (SmartCache.Holds metrics)
    ∧ metrics = [1].
Proof.
  destruct (end_build_keeps_last_100 nat S S
              (MetricsCollector.Make nat (Some SmartCache.Malformed) (Some 0)) 0)
    as (metrics & Hfile & _ & _ & _ & Hall & _); [done|].
  exists metrics. split; [done|]. apply Hall. simpl. lia.
Defined.

(** ** Recorded build patterns *)

Lemma tally_nil {A} (P : A → bool) : tally P [] = 0%Z.
Proof. done. Qed.

Lemma tally_snoc {A} (P : A → bool) calls call :
  tally P (calls ++ [call])
  = (tally P calls + if P call then 1 else 0)%Z.
Proof.
  unfold tally. rewrite List.filter_app, length_app. simpl.
  destruct (P call); simpl; lia.
Qed.

Lemma tally_nonneg {A} (P : A → bool) calls : (0 ≤ tally P calls)%Z.
Proof. unfold tally. lia. Qed.

Lemma tally_and_le {A} (P Q : A → bool) calls :
  (0 ≤ tally (λ x, P x && Q x) calls ≤ tally P calls)%Z.
Proof.
  unfold tally. induction calls as [|x calls IH]; simpl; [lia|].
  destruct (P x), (Q x); simpl; lia.
Qed.

Lemma dict_get_set_eq_ne {V} (d : dict V) k k' (v : V) :
  dict_get k' (dict_set k v d)
  = if decide (k = k') then Some v else dict_get k' d.
Proof.
  case_decide; [subst; apply dict_get_set_eq|by apply dict_get_set_ne].
Qed.

Section learner.
Import PatternLearner.
Variable float : Type.
Variable fzero : float.
Variable fadd : float → float → float.
Variable fdiv : float → Z → float.

Lemma dict_get_ensure {V} (d : dict V) k k' (v : V) :
  dict_get k' (if dict_mem k d then d else dict_set k v d)
  = if decide (k = k') then Some (default v (dict_get k d))
    else dict_get k' d.
Proof.
  unfold dict_mem. destruct (dict_get k d) as [v0|] eqn:Hk; simpl.
  - case_decide; [by subst|done].
  - case_decide as Hkk.
    + subst. apply dict_get_set_eq.
    + by apply dict_get_set_ne.
Qed.

Lemma record_pattern_counts self calls call :
  counts_match self calls →
  ∃ self',
    record_pattern float fzero fadd fdiv (call_project call)
      (call_strategy call) (call_success call) (call_duration call) self
    = Some self'
    ∧ counts_match self' (calls ++ [call])
    ∧ learning_file float self'
      = Some (SmartCache.Holds (patterns float self')).
Proof.
  destruct call as [p0 s0 success duration]. simpl.
  intros [Hstrategies Hprojects]. unfold record_pattern.
  set (patterns1 := if dict_mem p0 (patterns float self) then patterns float self
                    else dict_set p0 (ProjectData float [] 0) (patterns float self)).
  assert (Hpatterns1 : ∀ p, dict_get p patterns1
    = if decide (p0 = p)
      then Some (default (ProjectData float [] 0)
                   (dict_get p0 (patterns float self)))
      else dict_get p (patterns float self)).
  { intros p. apply dict_get_ensure. }
  rewrite (Hpatterns1 p0), decide_True by done. simpl.
  set (project := default (ProjectData float [] 0)
                    (dict_get p0 (patterns float self))).
  set (strategies1 := if dict_mem s0 (strategies float project)
                      then strategies float project
                      else dict_set s0 (StrategyData float 0 0 fzero fzero 0)
                             (strategies float project)).
  assert (Hstrategies1 : ∀ s, dict_get s strategies1
    = if decide (s0 = s)
      then Some (default (StrategyData float 0 0 fzero fzero 0)
                   (dict_get s0 (strategies float project)))
      else dict_get s (strategies float project)).
  { intros s. apply dict_get_ensure. }
  rewrite (Hstrategies1 s0), decide_True by done. simpl.
  set (data := default (StrategyData float 0 0 fzero fzero 0)
                 (dict_get s0 (strategies float project))).
  assert (Hlookup : ∀ s, strategy_lookup p0 s (patterns float self)
                         = dict_get s (strategies float project)).
  { intros s. unfold strategy_lookup, project.
    by destruct (dict_get p0 (patterns float self)). }
  assert (Hdata :
    count float data = tally (for_strategy p0 s0) calls
    ∧ success_count float data
      = tally (λ call, for_strategy p0 s0 call && call_success call) calls
    ∧ failure_count float data
      = tally (λ call, for_strategy p0 s0 call && negb (call_success call))
          calls).
  { specialize (Hstrategies p0 s0). rewrite Hlookup in Hstrategies.
    unfold data. destruct (dict_get s0 (strategies float project)); [done|].
    simpl.
    pose proof (tally_and_le (for_strategy p0 s0) call_success calls).
    pose proof (tally_and_le (for_strategy p0 s0)
                  (λ call, negb (call_success call)) calls).
    split_and!; lia. }
  destruct Hdata as (Hcount & Hsuccess & Hfailure).
  assert (Htotal : total_builds float project = tally (for_project p0) calls).
  { specialize (Hprojects p0). unfold project.
    by destruct (dict_get p0 (patterns float self)). }
  pose proof (tally_nonneg (for_strategy p0 s0) calls) as Hnonneg.
  assert (Hfinal : ∀ file data',
    count float data' = (count float data + 1)%Z →
    success_count float data'
    = (success_count float data + if success then 1 else 0)%Z →
    failure_count float data'
    = (failure_count float data + if success then 0 else 1)%Z →
    counts_match
      (Make float file
         (dict_set p0
            (ProjectData float (dict_set s0 data' strategies1)
               (total_builds float project + 1)) patterns1))
      (calls ++ [PatternCall p0 s0 success duration])).
  { intros file data' Hc Hs Hf. split.
    - intros p s. unfold strategy_lookup. cbn [patterns].
      rewrite dict_get_set_eq_ne, Hpatterns1, !tally_snoc. cbv beta.
      change (for_strategy p s (PatternCall p0 s0 success duration))
        with (bool_decide (p0 = p) && bool_decide (s0 = s)).
      cbn [call_success].
      destruct (decide (p0 = p)) as [<-|Hp].
      + rewrite (bool_decide_eq_true_2 (p0 = p0)) by done.
        cbn [mbind option_bind strategies].
        rewrite dict_get_set_eq_ne, Hstrategies1.
        destruct (decide (s0 = s)) as [<-|Hs0].
        * rewrite (bool_decide_eq_true_2 (s0 = s0)) by done.
          destruct success; simpl in Hs, Hf |- *; lia.
        * rewrite (bool_decide_eq_false_2 (s0 = s)) by done. simpl.
          specialize (Hstrategies p0 s). rewrite Hlookup in Hstrategies.
          destruct (dict_get s (strategies float project)); lia.
      + rewrite (bool_decide_eq_false_2 (p0 = p)) by done. simpl.
        specialize (Hstrategies p s). unfold strategy_lookup in Hstrategies.
        destruct (dict_get p (patterns float self)); simpl in *;
          [destruct (dict_get s _)|]; lia.
    - intros p. cbn [patterns].
      rewrite dict_get_set_eq_ne, Hpatterns1, tally_snoc.
      change (for_project p (PatternCall p0 s0 success duration))
        with (bool_decide (p0 = p)).
      destruct (decide (p0 = p)) as [<-|Hp].
      + rewrite bool_decide_eq_true_2 by done. simpl. lia.
      + rewrite bool_decide_eq_false_2 by done.
        specialize (Hprojects p). destruct (dict_get p _); lia. }
  destruct success; simpl; (rewrite decide_False by lia);
    (eexists; split; [done|]); (split; [|done]);
    unfold _save_patterns; cbn [patterns]; apply Hfinal; simpl; lia.
Qed.

Lemma record_all_counts calls self before :
  counts_match self before →
  ∃ self',
    record_all fzero fadd fdiv calls self = Some self'
    ∧ counts_match self' (before ++ calls)
    ∧ (calls ≠ []
       ∨ learning_file float self
         = Some (SmartCache.Holds (patterns float self)) →
       learning_file float self'
       = Some (SmartCache.Holds (patterns float self'))).
Proof.
  unfold record_all. revert self before.
  induction calls as [|call calls IH]; intros self before Hmatch.
  - exists self. rewrite app_nil_r. split_and!; [done..|].
    by intros [?|?].
  - destruct (record_pattern_counts self before call Hmatch)
      as (self1 & Hrun & Hmatch1 & Hfile1).
    simpl. rewrite Hrun.
    destruct (IH self1 (before ++ [call]) Hmatch1) as (self' & ? & ? & Hfile).
    exists self'. rewrite <-app_assoc in *. split_and!; [done..|].
    intros _. apply Hfile. by right.
Qed.

Lemma counts_match_nil learning_file :
  counts_match (Make float learning_file []) [].
Proof. split; intros; simpl; by rewrite ?tally_nil. Qed.
End learner.

(** X20. A learner that starts from no patterns (its learning file is
    absent, cannot be read, cannot be decoded or holds an empty
    dictionary) never raises in [record_pattern], and after any calls its
    counters are those of the calls: for each project type and strategy,
    [count], [success_count] and [failure_count] are the numbers of the
    calls, of the successful calls and of the failed calls made for them,
    [total_builds] of a project type is the number of the calls made for
    it, and what was never recorded has no entry.  After a call the
    learning file holds the patterns of the learner. *)
Theorem record_pattern_counts_calls {float : Type} (fzero : float)
    (fadd : float → float → float) (fdiv : float → Z → float)
    (learning_file : option
       (SmartCache.file (dict (PatternLearner.project_data float))))
    (calls : list (pattern_call float)) :
  PatternLearner._load_patterns float learning_file = [] →
  ∃ self',
    record_all fzero fadd fdiv calls (PatternLearner.init float learning_file)
    = Some self'
    ∧ counts_match self' calls
    ∧ (calls ≠ [] →
       PatternLearner.learning_file float self'
       = Some (SmartCache.Holds (PatternLearner.patterns float self'))).
Proof.
  intros Hempty. unfold PatternLearner.init. rewrite Hempty.
  destruct (record_all_counts float fzero fadd fdiv calls
              (PatternLearner.Make float learning_file []) [])
    as (self' & Hrun & Hmatch & Hfile).
  { apply counts_match_nil. }
  exists self'. split_and!; [done..|].
  intros Hcalls. apply Hfile. by left.
Qed.

(** Two builds of a project type recorded with no learning file. *)
Lemma record_pattern_counts_calls_witness :
  PatternLearner._load_patterns Z None = []
  ∧ ∃ self',
      record_all 0%Z Z.add Z.div
        [PatternCall "python" "parallel" true 3%Z;
         PatternCall "python" "parallel" false 5%Z]
        (PatternLearner.init Z None)
      = Some self'
      ∧ counts_match self'
          [PatternCall "python" "parallel" true 3%Z;
           PatternCall "python" "parallel" false 5%Z]
      ∧ ([PatternCall "python" "parallel" true 3%Z;
          PatternCall "python" "parallel" false 5%Z] ≠ [] →
         PatternLearner.learning_file Z self'
         = Some (SmartCache.Holds (PatternLearner.patterns Z self'))).
Proof.
  split; [reflexivity|].
  apply (record_pattern_counts_calls 0%Z Z.add Z.div None). reflexivity.
Defined.

(** ** Generated build commands *)

Lemma sublist_append_if b (c l m : list string) :
  l `sublist_of` m →
  BuildOrchestrator.append_if b c l `sublist_of` m ++ c.
Proof.
  intros Hlm. destruct b; simpl.
  - by apply sublist_app.
  - by apply sublist_inserts_r.
Qed.

Lemma sublist_if_append_if (b b' : bool) (c c' l m : list string) :
  l `sublist_of` m →
  (if b then BuildOrchestrator.append_if b' c' (l ++ c) else l)
  `sublist_of` (m ++ c) ++ c'.
Proof.
  intros Hlm. destruct b.
  - by apply sublist_append_if, sublist_app.
  - by do 2 apply sublist_inserts_r.
Qed.

(** The commands are those of the tools before cmake, followed by what
    the last two [if] statements append. *)
Lemma generate_build_commands_shape context dir :
  ∃ before,
    before `sublist_of` commands_before_cmake
    ∧ BuildOrchestrator._generate_build_commands context dir
      = BuildOrchestrator.append_if
          (bool_decide ("make" ∈ ProjectContext.build_tools context)
           && negb (bool_decide ("cmake" ∈ ProjectContext.build_tools context)))
          ["make"]
          (BuildOrchestrator.append_if
             (bool_decide ("cmake" ∈ ProjectContext.build_tools context))
             ["mkdir -p build && cd build"; "cmake .."; "make"] before).
Proof.
  unfold BuildOrchestrator._generate_build_commands. cbv zeta.
  eexists. split; [|reflexivity].
  change commands_before_cmake with
    ((((((((((([] ++ ["pip install -r requirements.txt"])
             ++ ["python setup.py build"])
            ++ ["poetry install"; "poetry build"])
           ++ ["npm install"]) ++ ["npm run build"])
         ++ ["yarn install"]) ++ ["yarn build"])
       ++ ["cargo build --release"]) ++ ["go build ./..."])
     ++ ["mvn clean install"]) ++ ["gradle build"]).
  do 4 apply sublist_append_if.
  do 2 apply sublist_if_append_if. apply sublist_append_if.
  destruct (bool_decide ("pip" ∈ _)).
  - by do 2 apply sublist_append_if.
  - apply sublist_nil_l.
Qed.

(** X21. Whatever the build tools and the directory, the generated
    commands are taken from a fixed list of fifteen, in its order and
    none of them twice; [make] is among them exactly when cmake or make
    is a build tool. *)
Theorem generated_commands_in_fixed_order
    (context : ProjectContext.t) (dir : BuildOrchestrator.project_dir) :
  let commands := BuildOrchestrator._generate_build_commands context dir in
  commands `sublist_of` all_build_commands
  ∧ NoDup commands
  ∧ ("make" ∈ commands
     ↔ "cmake" ∈ ProjectContext.build_tools context
       ∨ "make" ∈ ProjectContext.build_tools context).
Proof.
  intros commands. subst commands.
  destruct (generate_build_commands_shape context dir)
    as (before & Hbefore & ->).
  assert (Hsub :
    BuildOrchestrator.append_if
      (bool_decide ("make" ∈ ProjectContext.build_tools context)
       && negb (bool_decide ("cmake" ∈ ProjectContext.build_tools context)))
      ["make"]
      (BuildOrchestrator.append_if
         (bool_decide ("cmake" ∈ ProjectContext.build_tools context))
         ["mkdir -p build && cd build"; "cmake .."; "make"] before)
    `sublist_of` all_build_commands).
  { unfold all_build_commands.
    set (m := commands_before_cmake) in *. clearbody m.
    destruct (bool_decide ("cmake" ∈ _)); cbn [negb].
    - rewrite andb_false_r. cbn [BuildOrchestrator.append_if].
      by apply sublist_app.
    - rewrite andb_true_r.
      destruct (bool_decide ("make" ∈ _)); cbn [BuildOrchestrator.append_if].
      + apply sublist_app; [done|]. by do 2 apply sublist_cons.
      + by apply sublist_inserts_r. }
  assert (Hmake : "make" ∉ before).
  { intros Hin. apply (elem_of_sublist _ _ _ Hin) in Hbefore.
    revert Hbefore. apply (bool_decide_unpack _). by vm_compute. }
  split_and!; [done| |].
  - eapply sublist_NoDup; [|exact Hsub].
    apply (bool_decide_unpack _). by vm_compute.
  - destruct (decide ("cmake" ∈ ProjectContext.build_tools context)) as [Hc|Hc],
      (decide ("make" ∈ ProjectContext.build_tools context)) as [Hm|Hm].
    all: rewrite ?(bool_decide_eq_true_2 _ Hc), ?(bool_decide_eq_false_2 _ Hc),
           ?(bool_decide_eq_true_2 _ Hm), ?(bool_decide_eq_false_2 _ Hm).
    all: simpl; rewrite ?elem_of_app, ?elem_of_cons, ?elem_of_nil.
    all: naive_solver.
Qed.

(** ** The timestamp of the build cache *)

Lemma py_max_cases max_mtime mtime :
  (BuildOrchestrator.py_max max_mtime mtime = max_mtime
   ∨ BuildOrchestrator.py_max max_mtime mtime = mtime)
  ∧ QArith_base.Qle max_mtime (BuildOrchestrator.py_max max_mtime mtime)
  ∧ QArith_base.Qle mtime (BuildOrchestrator.py_max max_mtime mtime).
Proof.
  unfold BuildOrchestrator.py_max.
  destruct (QArith_base.Qle_bool mtime max_mtime) eqn:Hle.
  - apply QArith_base.Qle_bool_iff in Hle.
    split_and!; [by left|apply QArith_base.Qle_refl|done].
  - split_and!; [by right| |apply QArith_base.Qle_refl].
    apply QArith_base.Qlt_le_weak, QArith_base.Qnot_le_lt.
    intros Hle'. apply QArith_base.Qle_bool_iff in Hle'. congruence.
Qed.

Lemma max_mtime_fold (getmtime : string → option QArith_base.Q)
    (paths : list string) (start : QArith_base.Q) :
  let latest :=
    foldl (λ acc file_path,
             match getmtime file_path with
             | Some mtime => BuildOrchestrator.py_max acc mtime
             | None => acc
             end) start paths in
  QArith_base.Qle start latest
  ∧ (∀ path t, path ∈ paths → getmtime path = Some t →
       QArith_base.Qle t latest)
  ∧ (latest = start ∨ ∃ path, path ∈ paths ∧ getmtime path = Some latest).
Proof.
  revert start. induction paths as [|p paths IH]; intros start; simpl.
  - split_and!; [apply QArith_base.Qle_refl| |by left].
    by intros path t ?%elem_of_nil.
  - set (next := match getmtime p with
                 | Some mtime => BuildOrchestrator.py_max start mtime
                 | None => start
                 end).
    destruct (IH next) as (Hnext & Hall & Hfrom).
    assert (Hstart : QArith_base.Qle start next).
    { unfold next. destruct (getmtime p) as [mtime|];
        [apply py_max_cases|apply QArith_base.Qle_refl]. }
    split_and!.
    + by eapply QArith_base.Qle_trans.
    + intros path t [->|Hin]%elem_of_cons Ht; [|by eapply Hall].
      eapply QArith_base.Qle_trans; [|exact Hnext].
      unfold next. rewrite Ht. apply py_max_cases.
    + destruct Hfrom as [Heq|(path & Hin & Hpath)].
      * rewrite Heq. unfold next.
        destruct (getmtime p) as [mtime|] eqn:Hp; [|by left].
        destruct (py_max_cases start mtime) as ([->| ->] & _); [by left|].
        right. exists p. split; [left|done].
      * right. exists path. split; [by right|done].
Qed.

(** X22. [save_build_cache] writes the signatures and the build tools of
    the context with a timestamp that is at least 0 and at least the
    modification time of every tracked file whose time can be read, and
    that is 0 or the modification time of one of them. *)
Theorem saved_timestamp_is_latest_mtime
    (context : ProjectContext.t) (dir : BuildOrchestrator.project_dir) :
  ∃ timestamp,
    BuildOrchestrator.build_cache
      (BuildOrchestrator.save_build_cache context dir)
    = Some (SmartCache.Holds
              (BuildOrchestrator.CacheData
                 (ProjectContext.file_signatures context) timestamp
                 (ProjectContext.build_tools context)))
    ∧ QArith_base.Qle (QArith_base.Qmake 0 1) timestamp
    ∧ (∀ path t,
         is_Some (ProjectContext.file_signatures context !! path) →
         BuildOrchestrator.getmtime dir path = Some t →
         QArith_base.Qle t timestamp)
    ∧ (timestamp = QArith_base.Qmake 0 1
       ∨ ∃ path,
           is_Some (ProjectContext.file_signatures context !! path)
           ∧ BuildOrchestrator.getmtime dir path = Some timestamp).
Proof.
  assert (Hpaths : ∀ path,
    path ∈ (map_to_list (ProjectContext.file_signatures context)).*1
    ↔ is_Some (ProjectContext.file_signatures context !! path)).
  { intros path. rewrite list_elem_of_fmap. split.
    - intros ([k v] & -> & Hin%elem_of_map_to_list). by exists v.
    - intros [v Hv]. exists (path, v). by rewrite elem_of_map_to_list. }
  destruct (max_mtime_fold (BuildOrchestrator.getmtime dir)
              (map_to_list (ProjectContext.file_signatures context)).*1
              (QArith_base.Qmake 0 1)) as (Hzero & Hall & Hfrom).
  eexists. split; [reflexivity|]. split_and!; [done| |].
  - intros path t Hpath%Hpaths. by apply Hall.
  - destruct Hfrom as [?|(path & Hin%Hpaths & ?)]; [by left|].
    right. by exists path.
Qed.
